(** * TaskTable: ranking of tasks and the guarded ROI display value

    Shallow embedding of the two pieces of logic in
    [src/components/TaskTable.tsx]:

    - [calculateROI], the guarded division shown in the ROI column;
    - [sortedTasks], the copy of the task array sorted by ROI, then
      priority, then title.

    JavaScript numbers are IEEE 754 binary64 values; they are modelled by
    Rocq's primitive [float], whose operations are the processor's.  The
    host functions the component calls ([Number.prototype.toFixed],
    [Array.prototype.sort], [String.prototype.localeCompare]) are modelled
    after ECMA-262. *)

From Stdlib Require Import ZArith NArith Floats List String Ascii Bool Lia.
From Stdlib Require Import Permutation Sorted.
Import ListNotations.

Local Open Scope Z_scope.

(** ** JavaScript values that reach the numeric code *)

(** TypeScript types are erased at run time: a slot typed [number] can hold
    [undefined] or [null] when upstream parsing left it absent. *)
Inductive value : Type :=
  | Undefined
  | Null
  | Num (x : float).

(** [ToNumber] of ECMA-262 7.1.4 on these values. *)
Definition ToNumber (v : value) : float :=
  match v with
  | Undefined => nan
  | Null => 0%float
  | Num x => x
  end.

(** [ToBoolean] of ECMA-262 7.1.2: a number is falsy when it is [+0], [-0]
    or [NaN]. *)
Definition ToBoolean (v : value) : bool :=
  match v with
  | Undefined | Null => false
  | Num x => negb ((x =? 0)%float || is_nan x)
  end.

(** [v ?? d] with a numeric default. *)
Definition nullish_or (v : value) (d : float) : float :=
  match v with
  | Undefined | Null => d
  | Num x => x
  end.

(** [x !== y] on two numbers: IEEE inequality, so [NaN !== y] holds. *)
Definition strict_neq (x y : float) : bool := negb (x =? y)%float.

(** ** Decimal digits *)

Definition digit_char (d : N) : ascii :=
  ascii_of_N (48 + d).

Fixpoint decimal_fuel (fuel : nat) (n : N) : list ascii :=
  match fuel with
  | O => []
  | S fuel' =>
      if (n <? 10)%N then [digit_char n]
      else decimal_fuel fuel' (n / 10)%N ++ [digit_char (n mod 10)%N]
  end.

(** The decimal representation of [n], without leading zeros ("0" for 0). *)
Definition decimal (n : N) : list ascii :=
  decimal_fuel (S (N.to_nat (N.log2 n))) n.

(** [c] is one of the characters "0" to "9". *)
Definition is_digit (c : ascii) : Prop :=
  exists d, (d < 10)%N /\ c = digit_char d.

(** ** Exact value of a double *)

(** A finite double is [num / den] with [den] a power of two. *)
Definition SFabs_frac (x : spec_float) : Z * Z :=
  match x with
  | S754_finite _ m e =>
      if 0 <=? e then (Zpos m * 2 ^ e, 1) else (Zpos m, 2 ^ (- e))
  | _ => (0, 1)
  end.

Definition abs_frac (x : float) : Z * Z := SFabs_frac (Prim2SF x).

(** ** The order of doubles, as integers

    Every double that is not NaN is mapped to an integer so that the IEEE
    comparisons become the integer ones: a finite value [m * 2^e] (with
    [e >= -1074]) to [m * 2^(e + 1074)], both zeros to 0, and the
    infinities beyond every finite value. *)

Definition sf_big : Z := 2 ^ 2200.

Definition mag (m : positive) (e : Z) : Z := Zpos m * 2 ^ (e + 1074).

Definition SFord (x : spec_float) : Z :=
  match x with
  | S754_zero _ => 0
  | S754_infinity s => cond_Zopp s sf_big
  | S754_nan => 0
  | S754_finite s m e => cond_Zopp s (Zpos m * 2 ^ (e + 1074))
  end.

Definition ford (x : float) : Z := SFord (Prim2SF x).

Definition SFis_nan (x : spec_float) : bool :=
  match x with S754_nan => true | _ => false end.

Definition SFis_inf (x : spec_float) : bool :=
  match x with S754_infinity _ => true | _ => false end.

(** The sign of a double: [None] for NaN. *)
Definition SFsign (x : spec_float) : option comparison :=
  match x with
  | S754_zero _ => Some Eq
  | S754_nan => None
  | S754_infinity s | S754_finite s _ _ => Some (if s then Lt else Gt)
  end.

(** ** Number::toString for the values [toFixed] delegates to it

    ECMA-262 6.1.6.1.20.  [toFixed] calls it for non-finite values and
    for magnitudes of at least 10^21, which are integers. *)

(** The double nearest to the positive integer [v], ties to even, as an
    integer (an overflow shows as a value of at least 2^1024). *)
Definition round_to_double (v : Z) : Z :=
  let L := Z.log2 v + 1 in
  if L <=? 53 then v
  else
    let sh := L - 53 in
    let q := Z.shiftr v sh in
    let r := v - Z.shiftl q sh in
    let half := 2 ^ (sh - 1) in
    let q' := if (half <? r) || ((r =? half) && Z.odd q) then q + 1 else q in
    Z.shiftl q' sh.

Definition decimal_length (v : Z) : Z :=
  Z.of_nat (List.length (decimal (Z.to_N v))).

(** The candidates with [k] significant digits for the integer [X] of
    [D] decimal digits: the [k]-digit prefix and its successor, each with
    the position [n] of its decimal point. *)
Definition candidates (X D k : Z) : list (Z * Z) :=
  let p := 10 ^ (D - k) in
  let lo := X / p in
  let up := if lo + 1 <? 10 ^ k then (lo + 1, D) else (10 ^ (k - 1), D + 1) in
  filter (fun '(s, n) => round_to_double (s * 10 ^ (n - k)) =? X) [(lo, D); up].

(** Among the candidates, the one closest to [X]. *)
Definition closest (X k : Z) (cs : list (Z * Z)) : option (Z * Z) :=
  match cs with
  | [] => None
  | [c] => Some c
  | (s1, n1) :: (s2, n2) :: _ =>
      if Z.abs (s1 * 10 ^ (n1 - k) - X) <=? Z.abs (s2 * 10 ^ (n2 - k) - X)
      then Some (s1, n1) else Some (s2, n2)
  end.

(** The shortest digit string [s] (of [k] digits, [k] as small as
    possible) with [s * 10^(n-k)] rounding to [X]. *)
Fixpoint shortest_digits (fuel : nat) (X D k : Z) : Z * Z * Z :=
  match fuel with
  | O => (X, D, D)
  | S fuel' =>
      match closest X k (candidates X D k) with
      | Some (s, n) => (s, n, k)
      | None => shortest_digits fuel' X D (k + 1)
      end
  end.

Definition exponent_form (s n : Z) : list ascii :=
  let ds := decimal (Z.to_N s) in
  let e := decimal (Z.to_N (n - 1)) in
  match ds with
  | [] => []
  | [d] => d :: "e"%char :: "+"%char :: e
  | d :: rest => d :: "."%char :: rest ++ "e"%char :: "+"%char :: e
  end.

(** Digits of a finite double of magnitude at least 10^21. *)
Definition large_toString (X : Z) : list ascii :=
  let D := decimal_length X in
  let '(s, n, _) := shortest_digits 17 X D 1 in
  exponent_form s n.

Definition nonfinite_toString (x : float) : list ascii :=
  if is_nan x then list_ascii_of_string "NaN"
  else if (x <? 0)%float then list_ascii_of_string "-Infinity"
  else list_ascii_of_string "Infinity".

(** ** Number.prototype.toFixed (ECMA-262 21.1.3.3) *)

(** Step 9.a: the integer [n] for which [n / 10^f - x] is as close to
    zero as possible, the larger one when there are two; [x = num/den]. *)
Definition nearest_scaled (num den : Z) (f : nat) : Z :=
  (2 * num * 10 ^ Z.of_nat f + den) / (2 * den).

(** Steps 9.b and 9.c: the digits of [n], padded with zeros to [f + 1]
    characters, with a point before the last [f]. *)
Definition fixed_digits (n : Z) (f : nat) : list ascii :=
  let m := decimal (Z.to_N n) in
  match f with
  | O => m
  | _ =>
      let k := List.length m in
      let m := if (k <=? f)%nat then repeat "0"%char (f + 1 - k) ++ m else m in
      let k := List.length m in
      firstn (k - f) m ++ "."%char :: skipn (k - f) m
  end.

Definition toFixed (x : float) (f : nat) : string :=
  string_of_list_ascii
    (if is_finite x then
       let s := if (x <? 0)%float then ["-"%char] else [] in
       let '(num, den) := abs_frac x in
       if 10 ^ 21 * den <=? num then s ++ large_toString num
       else s ++ fixed_digits (nearest_scaled num den f) f
     else nonfinite_toString x).

(** The number [n / 100], written with exactly two decimals: the integer
    part, a point and two digits, after a minus sign when [neg]. *)
Definition two_decimals (neg : bool) (n : N) : string :=
  string_of_list_ascii
    ((if neg then ["-"%char] else [])
     ++ decimal (n / 100)
     ++ ["."%char; digit_char ((n / 10) mod 10); digit_char (n mod 10)]).

(** [n] hundredths is the value nearest to [num / den], the larger one of
    two: [n/100 - 1/200 <= num/den < n/100 + 1/200]. *)
Definition nearest_hundredth (num den : Z) (n : N) : Prop :=
  den * (2 * Z.of_N n - 1) <= 200 * num < den * (2 * Z.of_N n + 1).

(** A character of the ASCII range. *)
Definition plain (c : ascii) : Prop := (N_of_ascii c < 128)%N.

(** ** calculateROI (TaskTable.tsx, lines 37-40) *)

(** The sentinel: an em dash, U+2014, as its three UTF-8 bytes. *)
Definition dash : string :=
  String (ascii_of_nat 226) (String (ascii_of_nat 128)
    (String (ascii_of_nat 148) EmptyString)).

Definition calculateROI (revenue time : value) : string :=
  if negb (ToBoolean revenue) || negb (ToBoolean time)
     || (ToNumber time <=? 0)%float
  then dash
  else toFixed (ToNumber revenue / ToNumber time)%float 2.

(** The conditions under which the ROI is undefined. *)
Definition absent (v : value) : bool :=
  match v with
  | Undefined | Null => true
  | Num _ => false
  end.

Definition is_zero_value (v : value) : bool :=
  match v with
  | Num x => (x =? 0)%float
  | _ => false
  end.

Definition is_negative (v : value) : bool :=
  match v with
  | Num x => (x <? 0)%float
  | _ => false
  end.

(** ** Array.prototype.sort (ECMA-262 23.1.3.30) *)

Section Sort.
Context {A : Type}.
Variable comparefn : A -> A -> float.

(** [SortCompare]: the comparator's result, with [NaN] read as [+0]. *)
Definition SortCompare (x y : A) : float :=
  let v := comparefn x y in
  if is_nan v then 0%float else v.

(** [x] has to come after [y]. *)
Definition sorts_after (x y : A) : bool := (0 <? SortCompare x y)%float.

(** [x] may stay before [y]. *)
Definition may_precede (x y : A) : Prop := sorts_after x y = false.

(** Neither has to come after the other: the sort keeps such elements in
    the order of the input. *)
Definition ties (x y : A) : bool :=
  negb (sorts_after x y) && negb (sorts_after y x).

(** The host algorithm is not fixed by the standard, which asks for a
    sorted and stable result when the comparator is consistent.  The
    reference algorithm here is the insertion sort: an element passes
    only those it has to come after.  For a consistent comparator every
    stable sort gives the same result ([stable_sort_unique] below). *)
Fixpoint insert (x : A) (l : list A) : list A :=
  match l with
  | [] => [x]
  | y :: l' => if sorts_after x y then y :: insert x l' else x :: l
  end.

Fixpoint Array_sort (l : list A) : list A :=
  match l with
  | [] => []
  | x :: l' => insert x (Array_sort l')
  end.
End Sort.

(** ** Tasks *)

Inductive Priority : Type := High | Medium | Low.

(** Modelled from the spec: the declarations of [Task] and [DerivedTask]
    (module [@/types]) are not part of the component's file; the fields
    are those of section 3, with [roi] numeric or absent. *)
Record DerivedTask : Type := mkTask {
  id : string;
  title : string;
  revenue : float;
  timeTaken : float;
  priority : Priority;
  status : string;
  notes : option string;
  roi : value
}.

(** ** String.prototype.localeCompare

    The collation is the host's (ECMA-402); ECMA-262 22.1.3.12 requires it
    to be a consistent comparator, a total preorder on strings.  Strings
    that differ can collate as equal (canonically equivalent ones do).
    The number returned is -1, 0 or 1; the sort reads its sign only. *)
Class Collator : Type := {
  collate : string -> string -> comparison;
  collate_refl : forall s, collate s s = Eq;
  collate_antisym : forall s t, collate t s = CompOpp (collate s t);
  collate_trans : forall s t u,
    collate s t <> Gt -> collate t u <> Gt -> collate s u <> Gt
}.

Definition localeCompare `{Collator} (s t : string) : float :=
  match collate s t with
  | Lt => (-1)%float
  | Eq => 0%float
  | Gt => 1%float
  end.

(** ** sortedTasks (TaskTable.tsx, lines 25-34) *)

Definition priorityRank (p : Priority) : float :=
  match p with
  | High => 3%float
  | Medium => 2%float
  | Low => 1%float
  end.

(** The same task with another [roi]. *)
Definition with_roi (v : value) (t : DerivedTask) : DerivedTask :=
  mkTask (id t) (title t) (revenue t) (timeTaken t) (priority t)
    (status t) (notes t) v.

(** The rank table, as integers. *)
Definition rankZ (p : Priority) : Z :=
  match p with
  | High => 3
  | Medium => 2
  | Low => 1
  end.

(** The ROI key of a task: [t.roi ?? 0]. *)
Definition roi0 (t : DerivedTask) : float := nullish_or (roi t) 0.

Section Ranking.
Context `{Collator}.

Definition compareFn (a b : DerivedTask) : float :=
  let roiDiff := (roi0 b - roi0 a)%float in
  if strict_neq roiDiff 0 then roiDiff
  else
    let priorityDiff :=
      (priorityRank (priority b) - priorityRank (priority a))%float in
    if strict_neq priorityDiff 0 then priorityDiff
    else localeCompare (title a) (title b).

(** The contents of [[...tasks].sort(compareFn)]. *)
Definition sortedTasks (tasks : list DerivedTask) : list DerivedTask :=
  Array_sort compareFn tasks.

(** The order the comparator decides between two tasks whose ROI keys are
    not NaN, key by key.  Two infinite keys of the same sign tie at once:
    their difference is NaN, which passes the [!== 0] test and is
    returned. *)
Definition task_order (a b : DerivedTask) : comparison :=
  match ford (roi0 b) ?= ford (roi0 a) with
  | Lt => Lt
  | Gt => Gt
  | Eq =>
      if is_infinity (roi0 a) then Eq
      else
        match rankZ (priority b) ?= rankZ (priority a) with
        | Lt => Lt
        | Gt => Gt
        | Eq => collate (title a) (title b)
        end
  end.
End Ranking.

(** The input has no task whose ROI is NaN. *)
Definition NoNaN (tasks : list DerivedTask) : Prop :=
  Forall (fun t => is_nan (roi0 t) = false) tasks.

(** ** The store: arrays are objects, and [sort] works in place *)

Definition ref : Type := nat.
Definition heap : Type := list (list DerivedTask).

(** State and failure: a computation may throw (on a dangling reference). *)
Definition M (A : Type) : Type := heap -> option (A * heap).

Definition ret {A} (a : A) : M A := fun h => Some (a, h).

Definition bind {A B} (m : M A) (k : A -> M B) : M B :=
  fun h => match m h with
           | Some (a, h') => k a h'
           | None => None
           end.

Notation "x <- m ;; k" := (bind m (fun x => k))
  (at level 61, m at next level, right associativity).

Definition read (r : ref) : M (list DerivedTask) :=
  fun h => match nth_error h r with
           | Some l => Some (l, h)
           | None => None
           end.

Definition alloc (l : list DerivedTask) : M ref :=
  fun h => Some (List.length h, h ++ [l]).

Fixpoint update (r : ref) (l : list DerivedTask) (h : heap) : heap :=
  match h, r with
  | [], _ => []
  | _ :: h', O => l :: h'
  | l0 :: h', S r' => l0 :: update r' l h'
  end.

Definition write (r : ref) (l : list DerivedTask) : M unit :=
  fun h => Some (tt, update r l h).

(** [[...arr]]: a fresh array with the elements of [arr]. *)
Definition spread (arr : ref) : M ref :=
  l <- read arr ;; alloc l.

(** [arr.sort(f)]: sorts the array itself and returns it. *)
Definition sort_in_place (f : DerivedTask -> DerivedTask -> float)
    (arr : ref) : M ref :=
  l <- read arr ;;
  _ <- write arr (Array_sort f l) ;;
  ret arr.

(** [const sortedTasks = [...tasks].sort(compareFn)], on the store. *)
Definition sortedTasks_st `{Collator} (tasks : ref) : M ref :=
  copy <- spread tasks ;;
  sort_in_place compareFn copy.

(** ** Order of appearance in a sequence *)

(** [a] precedes [b] in [l]: both occur, and every occurrence of [a] is
    before every occurrence of [b]. *)
Definition Precedes {A} (l : list A) (a b : A) : Prop :=
  (exists l1 l2 l3, l = l1 ++ a :: l2 ++ b :: l3) /\
  (forall i j, nth_error l i = Some a -> nth_error l j = Some b ->
     (i < j)%nat).

(** [a] occurs somewhere before [b] in [l]. *)
Definition OccursBefore {A} (l : list A) (a b : A) : Prop :=
  exists i j, (i < j)%nat /\ nth_error l i = Some a /\ nth_error l j = Some b.

(** A task with the given identifier, title, ROI and priority. *)
Definition sample (i t : string) (r : value) (p : Priority) : DerivedTask :=
  mkTask i t 0 1 p "Todo" None r.

(** The collation of strings by the values of their code units, as one
    instance of a collation. *)
#[export] Instance codeUnitCollator : Collator.
Proof.
  refine {| collate := String.compare |}.
  - induction s as [| c s IH]; cbn; [reflexivity|].
    unfold Ascii.compare. now rewrite N.compare_refl.
  - intros s t. apply String.compare_antisym.
  - induction s as [| a s IH]; intros [| b t] [| c u]; cbn;
      try congruence.
    unfold Ascii.compare.
    destruct (N.compare_spec (N_of_ascii a) (N_of_ascii b));
      destruct (N.compare_spec (N_of_ascii b) (N_of_ascii c));
      destruct (N.compare_spec (N_of_ascii a) (N_of_ascii c));
      try congruence; try lia; eauto.
Defined.


(** ** The rest of the component *)

(** [existingTitles] (TaskTable.tsx, line 22): the titles handed to the
    form for its duplicate check. *)
Definition existingTitles (tasks : list DerivedTask) : list string :=
  map title tasks.

(** [ToBoolean] of a string: the empty string is falsy. *)
Definition truthy_string (s : string) : bool :=
  match s with
  | EmptyString => false
  | String _ _ => true
  end.

(** A NaN in a numeric slot. *)
Definition is_nan_value (v : value) : bool :=
  match v with
  | Num x => is_nan x
  | _ => false
  end.

(** The sign the sort reads off the comparator for a pair. *)
Definition sort_sign {A} (f : A -> A -> float) (x y : A) : comparison :=
  if (SortCompare f x y <? 0)%float then Lt
  else if (0 <? SortCompare f x y)%float then Gt
  else Eq.

(** *** The table body (TaskTable.tsx, lines 81-139) *)

(** A row of the body: the cells of a task, or the placeholder shown for
    an empty list.  A task row carries its React key and the task its
    click handlers close over. *)
Inductive BodyRow : Type :=
  | TaskRow (key : string) (titleText : string) (caption : option string)
      (revenueText : string) (timeText : float) (roiText : string)
      (priorityText : Priority) (statusText : string) (task : DerivedTask)
  | EmptyRow.

Section Rendering.
(** [Number.prototype.toLocaleString] is the host's. *)
Variable toLocaleString : float -> string.
Context `{Collator}.

(** [t.notes && ...]: the caption is rendered for a non-empty note. *)
Definition notesCaption (t : DerivedTask) : option string :=
  match notes t with
  | Some s => if truthy_string s then Some s else None
  | None => None
  end.

Definition taskRow (t : DerivedTask) : BodyRow :=
  TaskRow (id t) (title t) (notesCaption t)
    (String "$"%char (toLocaleString (revenue t)))
    (timeTaken t)
    (calculateROI (Num (revenue t)) (Num (timeTaken t)))
    (priority t) (status t) t.

Definition tableBody (tasks : list DerivedTask) : list BodyRow :=
  map taskRow (sortedTasks tasks)
  ++ (if (List.length tasks =? 0)%nat then [EmptyRow] else []).
End Rendering.

Definition row_key (r : BodyRow) : option string :=
  match r with
  | TaskRow k _ _ _ _ _ _ _ _ => Some k
  | EmptyRow => None
  end.

Definition row_title (r : BodyRow) : option string :=
  match r with
  | TaskRow _ t _ _ _ _ _ _ _ => Some t
  | EmptyRow => None
  end.

(** The keys, and the titles, of the task rows, from top to bottom. *)
Fixpoint somes {A} (l : list (option A)) : list A :=
  match l with
  | [] => []
  | Some a :: l' => a :: somes l'
  | None :: l' => somes l'
  end.

(** *** The handlers (TaskTable.tsx, lines 18-20, 42-59, 83, 107-121,
    143-155) *)

(** The component's state: [openForm], [editing] and [details]. *)
Record UIState : Type := mkUI {
  openForm : bool;
  editing : option DerivedTask;
  details : option DerivedTask
}.

(** [useState(false)], [useState(null)], [useState(null)]. *)
Definition initialUI : UIState := mkUI false None None.

(** Modelled from the spec: [Omit<Task, 'id'>], the fields of a task
    without its identifier (the type [Task] is declared in [@/types]). *)
Record TaskFields : Type := mkFields {
  f_title : string;
  f_revenue : float;
  f_timeTaken : float;
  f_priority : Priority;
  f_status : string;
  f_notes : option string
}.

(** The value a form submits: [Omit<Task, 'id'> & { id?: string }]. *)
Record FormValue : Type := mkValue {
  v_id : option string;
  v_fields : TaskFields
}.

(** What the component asks of its owner: [onAdd], [onUpdate],
    [onDelete]. *)
Inductive Intent : Type :=
  | OnAdd (payload : FormValue)
  | OnUpdate (i : string) (patch : TaskFields)
  | OnDelete (i : string).

Definition handleAddClick (st : UIState) : UIState :=
  mkUI true None (details st).

Definition handleEditClick (task : DerivedTask) (st : UIState) : UIState :=
  mkUI true (Some task) (details st).

(** [if (value.id) { const { id, ...rest } = value; onUpdate(id, rest) }
    else onAdd(value)]: an absent or empty identifier is falsy. *)
Definition handleSubmit (value : FormValue) : list Intent :=
  match v_id value with
  | Some i => if truthy_string i then [OnUpdate i (v_fields value)]
              else [OnAdd value]
  | None => [OnAdd value]
  end.

(** A click handler: the new state, the intents it issued, and whether it
    called [e.stopPropagation()]. *)
Definition ClickHandler : Type := UIState -> UIState * list Intent * bool.

(** The [onClick] of the Edit button, of the Delete button and of the
    row. *)
Definition editOnClick (t : DerivedTask) : ClickHandler :=
  fun st => (handleEditClick t st, [], true).

Definition deleteOnClick (t : DerivedTask) : ClickHandler :=
  fun st => (st, [OnDelete (id t)], true).

Definition rowOnClick (t : DerivedTask) : ClickHandler :=
  fun st => (mkUI (openForm st) (editing st) (Some t), [], false).

Definition addOnClick : ClickHandler :=
  fun st => (handleAddClick st, [], false).

(** Where a click lands. *)
Inductive Target : Type :=
  | AddButton
  | EditButton (t : DerivedTask)
  | DeleteButton (t : DerivedTask)
  | RowCell (t : DerivedTask).

(** The handlers on the way from the target up to the root: the buttons
    of a row are inside the row. *)
Definition handlers_of (tg : Target) : list ClickHandler :=
  match tg with
  | AddButton => [addOnClick]
  | EditButton t => [editOnClick t; rowOnClick t]
  | DeleteButton t => [deleteOnClick t; rowOnClick t]
  | RowCell t => [rowOnClick t]
  end.

(** A click bubbles: the handlers run from the innermost on, until one
    stops the propagation. *)
Fixpoint bubble (hs : list ClickHandler) (st : UIState)
    : UIState * list Intent :=
  match hs with
  | [] => (st, [])
  | h :: hs' =>
      let '(st1, out1, stopped) := h st in
      if stopped then (st1, out1)
      else let '(st2, out2) := bubble hs' st1 in (st2, out1 ++ out2)
  end.

(** What can happen to the component: a click, the form closing or
    submitting, the details dialog closing or saving. *)
Inductive Event : Type :=
  | Click (tg : Target)
  | FormClose
  | FormSubmit (value : FormValue)
  | DetailsClose
  | DetailsSave (i : string) (patch : TaskFields).

Definition step (e : Event) (st : UIState) : UIState * list Intent :=
  match e with
  | Click tg => bubble (handlers_of tg) st
  | FormClose => (mkUI false (editing st) (details st), [])
  | FormSubmit value => (st, handleSubmit value)
  | DetailsClose => (mkUI (openForm st) (editing st) None, [])
  | DetailsSave i patch => (st, [OnUpdate i patch])
  end.

Fixpoint run (evs : list Event) (st : UIState) : UIState * list Intent :=
  match evs with
  | [] => (st, [])
  | e :: evs' =>
      let '(st1, out1) := step e st in
      let '(st2, out2) := run evs' st1 in
      (st2, out1 ++ out2)
  end.

(** The events that ask something of the owner. *)
Definition asks (e : Event) : bool :=
  match e with
  | Click (DeleteButton _) | FormSubmit _ | DetailsSave _ _ => true
  | _ => false
  end.


(** ** The host's choice of algorithm

    ECMA-262 fixes the result of [sort] only when the comparator is
    consistent on the elements: then the result is the sorted, stable
    arrangement.  Otherwise the order is implementation-defined.  A host
    algorithm is any function that meets this; the insertion sort above
    is one, the bottom-up merge sort below another. *)

Definition HostSort : Type :=
  forall A : Type, (A -> A -> float) -> list A -> list A.

(** On every class [P] of elements where the comparator never asks for
    both orders and [may_precede] is transitive, the result is a sorted
    arrangement of the input that keeps ties in the order of the input. *)
Definition conforming (srt : HostSort) : Prop :=
  forall (A : Type) (f : A -> A -> float) (P : A -> Prop),
    (forall x y, P x -> P y ->
       sorts_after f x y = true -> sorts_after f y x = false) ->
    (forall x y z, P x -> P y -> P z ->
       may_precede f x y -> may_precede f y z -> may_precede f x z) ->
    forall l, Forall P l ->
      Permutation l (srt A f l) /\
      StronglySorted (may_precede f) (srt A f l) /\
      (forall x, In x l ->
         filter (ties f x) (srt A f l) = filter (ties f x) l).

Section MergeSort.
Context {A : Type}.
Variable comparefn : A -> A -> float.

(** The stable merge: an element of the right run goes first only when
    the element of the left run has to come after it. *)
Fixpoint merge (l r : list A) : list A :=
  let fix merge_aux (r : list A) : list A :=
    match l, r with
    | [], _ => r
    | _, [] => l
    | x :: l', y :: r' =>
        if sorts_after comparefn x y then y :: merge_aux r'
        else x :: merge l' r
    end
  in merge_aux r.

(** One pass: neighbouring runs are merged two by two. *)
Fixpoint merge_pairs (runs : list (list A)) : list (list A) :=
  match runs with
  | a :: b :: rest => merge a b :: merge_pairs rest
  | _ => runs
  end.

(** Passes are repeated until one run is left. *)
Fixpoint merge_all (fuel : nat) (runs : list (list A)) : list A :=
  match fuel with
  | O => List.concat runs
  | S fuel' =>
      match runs with
      | [] => []
      | [r] => r
      | _ => merge_all fuel' (merge_pairs runs)
      end
  end.

(** The bottom-up merge sort: runs of one element to start with. *)
Definition merge_sort (l : list A) : list A :=
  merge_all (List.length l) (map (fun x => [x]) l).
End MergeSort.

Definition insertion_host : HostSort := fun A f l => Array_sort f l.

Definition merge_host : HostSort := fun A f l => merge_sort f l.

(** [[...tasks].sort(compareFn)] on a host with the algorithm [srt]. *)
Definition rank_by `{Collator} (srt : HostSort) (tasks : list DerivedTask)
    : list DerivedTask :=
  srt DerivedTask compareFn tasks.


(** * Facts about doubles *)

(** *** Valid doubles and their integer keys *)

Lemma digits2_pos_bounds (m : positive) :
  2 ^ (Zpos (digits2_pos m) - 1) <= Zpos m < 2 ^ Zpos (digits2_pos m).
Proof.
  induction m as [m IH | m IH |]; cbn [digits2_pos].
  - rewrite Pos2Z.inj_succ.
    replace (Z.succ (Zpos (digits2_pos m)) - 1)
      with (Z.succ (Zpos (digits2_pos m) - 1)) by lia.
    rewrite !Z.pow_succ_r by lia. lia.
  - rewrite Pos2Z.inj_succ.
    replace (Z.succ (Zpos (digits2_pos m)) - 1)
      with (Z.succ (Zpos (digits2_pos m) - 1)) by lia.
    rewrite !Z.pow_succ_r by lia. lia.
  - cbn. lia.
Qed.

(** A valid finite double has its exponent between -1074 and 971 and a
    mantissa below 2^53, of exactly 53 bits unless it is subnormal. *)
Lemma bounded_range (m : positive) (e : Z) :
  bounded prec emax m e = true ->
  -1074 <= e <= 971 /\ Zpos m < 2 ^ 53 /\ (-1074 < e -> 2 ^ 52 <= Zpos m).
Proof.
  unfold bounded, canonical_mantissa, fexp, SpecFloat.emin, prec, emax.
  intros Hb. apply andb_true_iff in Hb. destruct Hb as [Hc He].
  apply Z.eqb_eq in Hc. apply Z.leb_le in He.
  pose proof (digits2_pos_bounds m) as [Hlo Hhi].
  set (d := Zpos (digits2_pos m)) in *.
  assert (Hd : d <= 53) by lia.
  split; [lia|]. split.
  - eapply Z.lt_le_trans; [exact Hhi|]. apply Z.pow_le_mono_r; lia.
  - intros Hlt. assert (Ed : d = 53) by lia. subst d.
    rewrite Ed in Hlo. exact Hlo.
Qed.

Lemma mag_pos m e : -1074 <= e -> 0 < mag m e.
Proof.
  intros He. unfold mag. apply Z.mul_pos_pos; [lia|].
  apply Z.pow_pos_nonneg; lia.
Qed.

Lemma mag_lt_big m e :
  bounded prec emax m e = true -> mag m e < sf_big.
Proof.
  intros Hb. apply bounded_range in Hb. destruct Hb as [He [Hm _]].
  unfold mag, sf_big.
  assert (H1 : 2 ^ (e + 1074) <= 2 ^ 2045) by (apply Z.pow_le_mono_r; lia).
  assert (H2 : 0 < 2 ^ (e + 1074)) by (apply Z.pow_pos_nonneg; lia).
  replace 2200 with (53 + 2045 + 102) by lia.
  rewrite (Z.pow_add_r 2 (53 + 2045) 102), (Z.pow_add_r 2 53 2045) by lia.
  assert (H3 : 0 < 2 ^ 53) by (apply Z.pow_pos_nonneg; lia).
  assert (H4 : 0 < 2 ^ 2045) by (apply Z.pow_pos_nonneg; lia).
  assert (H5 : 0 < 2 ^ 102) by (apply Z.pow_pos_nonneg; lia).
  set (a := 2 ^ (e + 1074)) in *. set (b := 2 ^ 53) in *.
  set (c := 2 ^ 2045) in *. set (d := 2 ^ 102) in *.
  clearbody a b c d.
  assert (Zpos m * a < b * c) by nia.
  nia.
Qed.

(** Valid doubles of the same sign compare by exponent, then mantissa. *)
Lemma mag_lt_exp m1 e1 m2 e2 :
  bounded prec emax m1 e1 = true -> bounded prec emax m2 e2 = true ->
  e1 < e2 -> mag m1 e1 < mag m2 e2.
Proof.
  intros H1 H2 Hlt.
  apply bounded_range in H1. destruct H1 as [He1 [Hm1 _]].
  apply bounded_range in H2. destruct H2 as [He2 [_ Hm2]].
  specialize (Hm2 ltac:(lia)).
  unfold mag.
  replace (e2 + 1074) with ((e1 + 1074) + (e2 - e1)) by lia.
  rewrite (Z.pow_add_r 2 (e1 + 1074) (e2 - e1)) by lia.
  assert (Ha : 0 < 2 ^ (e1 + 1074)) by (apply Z.pow_pos_nonneg; lia).
  assert (Hd : 2 ^ 1 <= 2 ^ (e2 - e1)) by (apply Z.pow_le_mono_r; lia).
  change (2 ^ 1) with 2 in Hd.
  change (2 ^ 53) with (2 * 2 ^ 52) in Hm1.
  set (P := 2 ^ 52) in *. clearbody P.
  set (A := 2 ^ (e1 + 1074)) in *. set (D := 2 ^ (e2 - e1)) in *.
  clearbody A D.
  assert (S1 : Zpos m1 * A < 2 * P * A) by (apply Z.mul_lt_mono_pos_r; lia).
  assert (S2 : 2 * P * A <= 2 * Zpos m2 * A)
    by (apply Z.mul_le_mono_nonneg_r; lia).
  assert (S3 : 2 * (Zpos m2 * A) <= D * (Zpos m2 * A))
    by (apply Z.mul_le_mono_nonneg_r; lia).
  lia.
Qed.

Lemma mag_compare m1 e1 m2 e2 :
  bounded prec emax m1 e1 = true -> bounded prec emax m2 e2 = true ->
  match e1 ?= e2 with
  | Lt => Lt
  | Gt => Gt
  | Eq => Pos.compare_cont Eq m1 m2
  end = (mag m1 e1 ?= mag m2 e2).
Proof.
  intros H1 H2. destruct (Z.compare_spec e1 e2) as [Heq | Hlt | Hgt].
  - subst e2. unfold mag.
    assert (Hp : 0 < 2 ^ (e1 + 1074))
      by (apply bounded_range in H1; apply Z.pow_pos_nonneg; lia).
    change (Pos.compare_cont Eq m1 m2) with (Zpos m1 ?= Zpos m2).
    symmetry.
    destruct (Z.compare_spec (Zpos m1) (Zpos m2)) as [E | L | G].
    + rewrite E. apply Z.compare_refl.
    + apply Z.compare_lt_iff. apply Z.mul_lt_mono_pos_r; assumption.
    + apply Z.compare_gt_iff. apply Z.mul_lt_mono_pos_r; assumption.
  - symmetry. apply Z.compare_lt_iff. now apply mag_lt_exp.
  - symmetry. apply Z.compare_gt_iff. now apply mag_lt_exp.
Qed.

Ltac cmp_solve :=
  symmetry;
  first [ apply Z.compare_eq_iff; lia
        | apply Z.compare_lt_iff; lia
        | apply Z.compare_gt_iff; lia ].

Lemma valid_mag_bounds s m e :
  valid_binary (S754_finite s m e) = true -> 0 < mag m e < sf_big.
Proof.
  cbn [valid_binary]. intros V. split.
  - apply mag_pos. apply bounded_range in V. lia.
  - now apply mag_lt_big.
Qed.

(** The IEEE comparison is the comparison of the integer keys. *)
Lemma SFcompare_ord (x y : spec_float) :
  valid_binary x = true -> valid_binary y = true ->
  SFis_nan x = false -> SFis_nan y = false ->
  SFcompare x y = Some (SFord x ?= SFord y).
Proof.
  intros Vx Vy Nx Ny.
  assert (Hbig : 0 < sf_big) by (unfold sf_big; apply Z.pow_pos_nonneg; lia).
  destruct x as [sx | sx | | sx mx ex], y as [sy | sy | | sy my ey];
    try discriminate;
    try pose proof (valid_mag_bounds _ _ _ Vx) as Bx;
    try pose proof (valid_mag_bounds _ _ _ Vy) as By;
    cbn [SFcompare SFord valid_binary] in *;
    try fold (mag mx ex); try fold (mag my ey); f_equal.
  1-7: try destruct sx; try destruct sy; cbn [cond_Zopp]; cmp_solve.
  destruct sx, sy; cbn [cond_Zopp]; try cmp_solve.
  - rewrite (Z.compare_opp (mag mx ex) (mag my ey)).
    rewrite (Z.compare_antisym (mag mx ex) (mag my ey)).
    rewrite <- (mag_compare mx ex my ey Vx Vy).
    destruct (ex ?= ey); reflexivity.
  - apply mag_compare; assumption.
Qed.

(** *** Rounding never loses the sign *)

Lemma shr_1_m mrs : 0 <= shr_m mrs -> shr_m (shr_1 mrs) = shr_m mrs / 2.
Proof.
  destruct mrs as [m r s]. cbn [shr_m]. intros Hm.
  rewrite <- Z.div2_div.
  destruct m as [| [p | p |] | p]; try reflexivity; lia.
Qed.

Lemma iter_shr_1_m (n : positive) : forall mrs,
  0 <= shr_m mrs ->
  shr_m (iter_pos shr_1 n mrs) = shr_m mrs / 2 ^ Zpos n.
Proof.
  induction n as [n IH | n IH |]; intros mrs Hm; cbn [iter_pos].
  - assert (H1 : 0 <= shr_m (shr_1 mrs))
      by (rewrite shr_1_m by assumption; apply Z.div_pos; lia).
    assert (H2 : 0 <= shr_m (iter_pos shr_1 n (shr_1 mrs)))
      by (rewrite IH by assumption; apply Z.div_pos;
          [assumption | apply Z.pow_pos_nonneg; lia]).
    rewrite IH, IH, shr_1_m by assumption.
    assert (Hp : 0 < 2 ^ Zpos n) by (apply Z.pow_pos_nonneg; lia).
    rewrite !Z.div_div by lia.
    f_equal.
    replace (Zpos n~1) with (1 + Zpos n + Zpos n) by lia.
    rewrite !Z.pow_add_r by lia. change (2 ^ 1) with 2. lia.
  - assert (H2 : 0 <= shr_m (iter_pos shr_1 n mrs))
      by (rewrite IH by assumption; apply Z.div_pos;
          [assumption | apply Z.pow_pos_nonneg; lia]).
    rewrite IH, IH by assumption.
    assert (Hp : 0 < 2 ^ Zpos n) by (apply Z.pow_pos_nonneg; lia).
    rewrite Z.div_div by lia.
    f_equal.
    replace (Zpos n~0) with (Zpos n + Zpos n) by lia.
    rewrite Z.pow_add_r by lia. reflexivity.
  - rewrite shr_1_m by assumption. reflexivity.
Qed.

Lemma shr_record_of_loc_m m l : shr_m (shr_record_of_loc m l) = m.
Proof. destruct l as [| []]; reflexivity. Qed.

(** Shifting a positive mantissa to its format keeps it positive: the
    exponent is at least the least one, so only the bits beyond the 53rd
    are dropped. *)
Lemma shr_fexp_pos (m e : Z) (l : location) :
  0 < m -> -1074 <= e ->
  0 < shr_m (fst (shr_fexp prec emax m e l)) /\
  -1074 <= snd (shr_fexp prec emax m e l).
Proof.
  intros Hm He. unfold shr_fexp, shr.
  destruct m as [| p | p]; try lia. cbn [Zdigits2].
  pose proof (digits2_pos_bounds p) as [Hlo _].
  set (d := Zpos (digits2_pos p)) in *.
  unfold fexp, SpecFloat.emin, prec, emax.
  destruct (Z.max (d + e - 53) (3 - 1024 - 53) - e) as [| n | n] eqn:En;
    cbn [fst snd]; rewrite ?shr_record_of_loc_m; try lia.
  rewrite iter_shr_1_m by (rewrite shr_record_of_loc_m; lia).
  rewrite shr_record_of_loc_m. split; [|lia].
  assert (Hn : Zpos n = d - 53) by lia.
  assert (Hp : 0 < 2 ^ Zpos n) by (apply Z.pow_pos_nonneg; lia).
  assert (Hle : 2 ^ Zpos n <= 2 ^ (d - 1)) by (apply Z.pow_le_mono_r; lia).
  apply Z.lt_le_trans with 1; [lia|].
  apply Z.div_le_lower_bound; lia.
Qed.

Lemma round_nearest_even_pos m l : 0 < m -> 0 < round_nearest_even m l.
Proof.
  intros Hm. destruct l as [| []]; cbn [round_nearest_even]; try lia.
  destruct (Z.even m); lia.
Qed.

Lemma binary_round_aux_sign sx mx ex lx :
  0 < mx -> -1074 <= ex ->
  SFsign (binary_round_aux prec emax sx mx ex lx)
  = Some (if sx then Lt else Gt).
Proof.
  intros Hm He. unfold binary_round_aux.
  pose proof (shr_fexp_pos mx ex lx Hm He) as [H1 H1'].
  destruct (shr_fexp prec emax mx ex lx) as [mrs' e']. cbn [fst snd] in *.
  pose proof (round_nearest_even_pos (shr_m mrs') (loc_of_shr_record mrs') H1)
    as H2.
  pose proof (shr_fexp_pos _ e' loc_Exact H2 H1') as [H3 _].
  destruct (shr_fexp prec emax _ e' loc_Exact) as [mrs'' e''].
  cbn [fst] in H3.
  destruct (shr_m mrs'') as [| p | p]; try lia.
  destruct (e'' <=? emax - prec); reflexivity.
Qed.

Lemma binary_round_sign sx mx ex :
  -1074 <= ex ->
  SFsign (binary_round prec emax sx mx ex) = Some (if sx then Lt else Gt).
Proof.
  intros He. unfold binary_round.
  destruct (shl_align mx ex _) as [mz ez] eqn:Es.
  apply binary_round_aux_sign; [lia|].
  unfold shl_align in Es.
  destruct (fexp prec emax (Zpos (digits2_pos mx) + ex) - ex) eqn:Ed;
    inversion Es; subst; try lia.
  unfold fexp, SpecFloat.emin, prec, emax. lia.
Qed.

Lemma binary_normalize_sign m e :
  -1074 <= e ->
  SFsign (binary_normalize prec emax m e false) = Some (m ?= 0).
Proof.
  intros He. destruct m as [| p | p]; cbn [binary_normalize].
  - reflexivity.
  - now rewrite binary_round_sign.
  - now rewrite binary_round_sign.
Qed.

Lemma pos_iter_xO (d : positive) : forall m,
  Zpos (Pos.iter xO m d) = Zpos m * 2 ^ Zpos d.
Proof.
  induction d as [| d IH] using Pos.peano_ind; intros m.
  - cbn. lia.
  - rewrite Pos.iter_succ, Pos2Z.inj_xO, IH, Pos2Z.inj_succ.
    rewrite Z.pow_succ_r by lia. lia.
Qed.

Lemma shl_align_mag m e ez :
  -1074 <= ez -> ez <= e ->
  Zpos (fst (shl_align m e ez)) * 2 ^ (ez + 1074) = mag m e.
Proof.
  intros Hz Hle. unfold shl_align, mag.
  destruct (ez - e) as [| d | d] eqn:Ed; cbn [fst]; try lia.
  - replace ez with e by lia. reflexivity.
  - rewrite pos_iter_xO.
    replace (e + 1074) with (Zpos d + (ez + 1074)) by lia.
    rewrite (Z.pow_add_r 2 (Zpos d) (ez + 1074)) by lia. ring.
Qed.

(** The difference has the sign of the comparison, except for two
    infinities of the same sign, whose difference is NaN. *)
Lemma SFsub_sign (x y : spec_float) :
  valid_binary x = true -> valid_binary y = true ->
  SFis_nan x = false -> SFis_nan y = false ->
  if SFis_inf x && (SFord x =? SFord y)
  then SF64sub x y = S754_nan
  else SFsign (SF64sub x y) = Some (SFord x ?= SFord y).
Proof.
  intros Vx Vy Nx Ny.
  assert (Hbig : 0 < sf_big) by (unfold sf_big; apply Z.pow_pos_nonneg; lia).
  destruct x as [sx | sx | | sx mx ex], y as [sy | sy | | sy my ey];
    try discriminate;
    try pose proof (valid_mag_bounds _ _ _ Vx) as Bx;
    try pose proof (valid_mag_bounds _ _ _ Vy) as By;
    cbn [SFis_inf andb SFord SF64sub SFsub SFsign valid_binary] in *;
    try fold (mag mx ex) in *; try fold (mag my ey) in *.
  1-8: try destruct sx; try destruct sy; cbn [cond_Zopp negb SFsign];
       try match goal with
           | |- context [ (?a =? ?b) ] =>
               destruct (Z.eqb_spec a b); try lia
           end;
       try reflexivity; f_equal; cmp_solve.
  apply bounded_range in Vx, Vy.
  rewrite binary_normalize_sign by lia. f_equal.
  pose proof (shl_align_mag mx ex (Z.min ex ey) ltac:(lia) ltac:(lia)) as Hx.
  pose proof (shl_align_mag my ey (Z.min ex ey) ltac:(lia) ltac:(lia)) as Hy.
  set (ax := Zpos (fst (shl_align mx ex (Z.min ex ey)))) in *.
  set (ay := Zpos (fst (shl_align my ey (Z.min ex ey)))) in *.
  assert (Hp : 0 < 2 ^ (Z.min ex ey + 1074)) by (apply Z.pow_pos_nonneg; lia).
  set (P := 2 ^ (Z.min ex ey + 1074)) in *. clearbody P ax ay.
  rewrite <- Hx, <- Hy.
  assert (Hs : forall a b : Z, (a - b ?= 0) = (a * P ?= b * P)).
  { intros a b. destruct (Z.compare_spec a b) as [E | L | G].
    - subst. rewrite Z.sub_diag. symmetry. apply Z.compare_refl.
    - transitivity Lt; [apply Z.compare_lt_iff; lia|].
      symmetry. apply Z.compare_lt_iff. apply Z.mul_lt_mono_pos_r; lia.
    - transitivity Gt; [apply Z.compare_gt_iff; lia|].
      symmetry. apply Z.compare_gt_iff. apply Z.mul_lt_mono_pos_r; lia. }
  rewrite Hs. destruct sx, sy; cbn [cond_Zopp]; f_equal; lia.
Qed.

(** *** The same facts on primitive floats *)

Lemma is_nan_spec x : is_nan x = SFis_nan (Prim2SF x).
Proof.
  unfold is_nan. rewrite FloatAxioms.eqb_spec. unfold SFeqb.
  destruct (Prim2SF x) as [s | s | | s m e]; cbn [SFcompare SFis_nan negb];
    try reflexivity.
  - destruct s; reflexivity.
  - rewrite Z.compare_refl.
    change (Pos.compare_cont Eq m m) with (Pos.compare m m).
    rewrite Pos.compare_refl. destruct s; reflexivity.
Qed.

Lemma Prim2SF_infinity : Prim2SF infinity = S754_infinity false.
Proof. reflexivity. Qed.

Lemma is_infinity_spec x : is_infinity x = SFis_inf (Prim2SF x).
Proof.
  unfold is_infinity.
  rewrite FloatAxioms.eqb_spec, abs_spec, Prim2SF_infinity. unfold SFeqb.
  destruct (Prim2SF x) as [s | s | | s m e]; reflexivity.
Qed.

Lemma ford_zero : ford 0 = 0.
Proof. reflexivity. Qed.

Lemma compare_ford x y :
  is_nan x = false -> is_nan y = false ->
  SFcompare (Prim2SF x) (Prim2SF y) = Some (ford x ?= ford y).
Proof.
  rewrite !is_nan_spec. intros Nx Ny.
  apply SFcompare_ord; auto using Prim2SF_valid.
Qed.

Lemma ltb_ford x y :
  is_nan x = false -> is_nan y = false ->
  (x <? y)%float = (ford x <? ford y).
Proof.
  intros Nx Ny. rewrite ltb_spec. unfold SFltb, Z.ltb.
  rewrite compare_ford by assumption. reflexivity.
Qed.

Lemma eqb_ford x y :
  is_nan x = false -> is_nan y = false ->
  (x =? y)%float = (ford x =? ford y).
Proof.
  intros Nx Ny. rewrite FloatAxioms.eqb_spec, Z.eqb_compare. unfold SFeqb.
  rewrite compare_ford by assumption. reflexivity.
Qed.

Lemma leb_ford x y :
  is_nan x = false -> is_nan y = false ->
  (x <=? y)%float = (ford x <=? ford y).
Proof.
  intros Nx Ny. rewrite leb_spec. unfold SFleb, Z.leb.
  rewrite compare_ford by assumption. reflexivity.
Qed.

(** Every comparison with NaN is false. *)
Lemma nan_compare x y :
  is_nan x = true \/ is_nan y = true ->
  (x <? y)%float = false /\ (x =? y)%float = false /\ (x <=? y)%float = false.
Proof.
  rewrite !is_nan_spec, ltb_spec, FloatAxioms.eqb_spec, leb_spec.
  unfold SFltb, SFeqb, SFleb.
  intros [N | N]; destruct (Prim2SF x), (Prim2SF y); try discriminate;
    repeat split; reflexivity.
Qed.

Lemma sub_nan x y :
  is_nan x = true \/ is_nan y = true -> is_nan (x - y)%float = true.
Proof.
  rewrite !is_nan_spec, sub_spec.
  intros [N | N]; destruct (Prim2SF x), (Prim2SF y); try discriminate;
    reflexivity.
Qed.

Lemma SFsign_ford v c :
  SFsign (Prim2SF v) = Some c ->
  is_nan v = false /\ (ford v ?= 0) = c.
Proof.
  rewrite is_nan_spec. unfold ford.
  pose proof (Prim2SF_valid v) as V.
  destruct (Prim2SF v) as [s | s | | s m e]; cbn [SFsign SFis_nan SFord];
    intros E; inversion E; subst; split; try reflexivity.
  - assert (Hbig : 0 < sf_big) by (unfold sf_big; apply Z.pow_pos_nonneg; lia).
    destruct s; cbn [cond_Zopp];
      [apply Z.compare_lt_iff | apply Z.compare_gt_iff]; lia.
  - pose proof (valid_mag_bounds _ _ _ V) as B. fold (mag m e).
    destruct s; cbn [cond_Zopp];
      [apply Z.compare_lt_iff | apply Z.compare_gt_iff]; lia.
Qed.

(** The difference of two numbers has the sign of their comparison: it is
    never rounded to zero.  Only [Infinity - Infinity] has no sign. *)
Lemma sub_sign x y :
  is_nan x = false -> is_nan y = false ->
  if is_infinity x && (ford x =? ford y)
  then is_nan (x - y)%float = true
  else is_nan (x - y)%float = false /\
       (ford (x - y)%float ?= 0) = (ford x ?= ford y).
Proof.
  intros Nx Ny. pose proof (SFsub_sign (Prim2SF x) (Prim2SF y)) as H.
  rewrite <- !is_nan_spec, <- is_infinity_spec, <- sub_spec in H.
  fold (ford x) (ford y) in H.
  specialize (H (Prim2SF_valid x) (Prim2SF_valid y) Nx Ny).
  destruct (is_infinity x && (ford x =? ford y)).
  - rewrite is_nan_spec, H. reflexivity.
  - now apply SFsign_ford.
Qed.

Lemma is_infinity_ford x : is_infinity x = (Z.abs (ford x) =? sf_big).
Proof.
  rewrite is_infinity_spec. unfold ford.
  pose proof (Prim2SF_valid x) as V.
  assert (Hbig : 0 < sf_big) by (unfold sf_big; apply Z.pow_pos_nonneg; lia).
  destruct (Prim2SF x) as [s | s | | s m e]; cbn [SFis_inf SFord]; symmetry.
  - apply Z.eqb_neq. cbn. lia.
  - apply Z.eqb_eq. destruct s; cbn [cond_Zopp]; lia.
  - apply Z.eqb_neq. cbn. lia.
  - pose proof (valid_mag_bounds _ _ _ V) as B. fold (mag m e).
    apply Z.eqb_neq. destruct s; cbn [cond_Zopp]; lia.
Qed.

Lemma SFord_abs (p : spec_float) :
  valid_binary p = true -> SFord (SFabs p) = Z.abs (SFord p).
Proof.
  intros V.
  assert (Hbig : 0 < sf_big) by (unfold sf_big; apply Z.pow_pos_nonneg; lia).
  destruct p as [s | s | | s m e]; cbn [SFabs SFord]; try reflexivity.
  - destruct s; cbn [cond_Zopp]; lia.
  - pose proof (valid_mag_bounds _ _ _ V) as B. fold (mag m e).
    destruct s; cbn [cond_Zopp]; lia.
Qed.

Lemma ford_abs x : ford (abs x) = Z.abs (ford x).
Proof.
  unfold ford. rewrite abs_spec. apply SFord_abs, Prim2SF_valid.
Qed.

Lemma is_nan_abs x : is_nan (abs x) = is_nan x.
Proof.
  rewrite !is_nan_spec, abs_spec. now destruct (Prim2SF x).
Qed.

(** The exact fraction of a finite double, against its integer key. *)
Lemma abs_frac_ford x :
  is_infinity x = false ->
  0 <= fst (abs_frac x) /\ 0 < snd (abs_frac x) /\
  fst (abs_frac x) * 2 ^ 1074 = Z.abs (ford x) * snd (abs_frac x).
Proof.
  rewrite is_infinity_spec. unfold abs_frac, ford.
  pose proof (Prim2SF_valid x) as V.
  destruct (Prim2SF x) as [s | s | | s m e]; cbn [SFis_inf SFabs_frac SFord];
    intros Hi; try discriminate; cbn [fst snd]; try (repeat split; lia).
  pose proof (valid_mag_bounds _ _ _ V) as B.
  cbn [valid_binary] in V. apply bounded_range in V.
  replace (Z.abs (cond_Zopp s (Zpos m * 2 ^ (e + 1074)))) with (mag m e)
    by (unfold mag in *; destruct s; cbn [cond_Zopp]; lia).
  unfold mag.
  destruct (Z.leb_spec 0 e) as [He | He]; cbn [fst snd].
  - assert (0 < 2 ^ e) by (apply Z.pow_pos_nonneg; lia).
    repeat split; try lia.
    rewrite Z.pow_add_r by lia. ring.
  - assert (0 < 2 ^ (- e)) by (apply Z.pow_pos_nonneg; lia).
    repeat split; try lia.
    rewrite <- Z.mul_assoc, <- Z.pow_add_r by lia.
    do 2 f_equal. lia.
Qed.


(** * Facts about the sort *)

Section SortFacts.
Context {A : Type}.
Variable f : A -> A -> float.


Lemma insert_perm (x : A) (l : list A) : Permutation (x :: l) (insert f x l).
Proof.
  induction l as [| y l IH]; cbn [insert].
  - apply Permutation_refl.
  - destruct (sorts_after f x y).
    + eapply perm_trans; [apply perm_swap|]. now apply perm_skip.
    + apply Permutation_refl.
Qed.

Lemma Array_sort_perm (l : list A) : Permutation l (Array_sort f l).
Proof.
  induction l as [| x l IH]; cbn [Array_sort].
  - apply perm_nil.
  - eapply perm_trans; [apply perm_skip, IH | apply insert_perm].
Qed.

Lemma Array_sort_Forall (Q : A -> Prop) (l : list A) :
  Forall Q l -> Forall Q (Array_sort f l).
Proof.
  intros HQ. eapply Permutation_Forall; [apply Array_sort_perm | exact HQ].
Qed.

(** A sequence whose neighbours are in order is left as it is. *)
Lemma Array_sort_fixpoint (l : list A) :
  Sorted (may_precede f) l -> Array_sort f l = l.
Proof.
  induction 1 as [| x l Hs IH Hhd]; cbn [Array_sort]; [reflexivity|].
  rewrite IH. destruct Hhd as [| y l Hxy]; cbn [insert]; [reflexivity|].
  unfold may_precede in Hxy. now rewrite Hxy.
Qed.

(** On a class [P] of elements where the comparator is consistent, the
    result is sorted throughout. *)
Section Consistent.
Variable P : A -> Prop.
Hypothesis after_asym :
  forall x y, P x -> P y ->
    sorts_after f x y = true -> sorts_after f y x = false.
Hypothesis precede_trans :
  forall x y z, P x -> P y -> P z ->
    may_precede f x y -> may_precede f y z -> may_precede f x z.

Lemma insert_StronglySorted (x : A) (l : list A) :
  P x -> Forall P l ->
  StronglySorted (may_precede f) l ->
  StronglySorted (may_precede f) (insert f x l).
Proof.
  intros Px Pl Hs. induction Hs as [| y l Hs IH Hall]; cbn [insert].
  - repeat constructor.
  - inversion Pl as [| ? ? Py Pl']; subst.
    destruct (sorts_after f x y) eqn:E.
    + constructor; [now apply IH|].
      eapply Permutation_Forall; [apply insert_perm|].
      constructor; [now apply after_asym | exact Hall].
    + constructor; [now constructor|].
      constructor; [exact E|].
      rewrite Forall_forall in Hall, Pl' |- *. intros z Hz.
      apply (precede_trans x y z); auto. 
Qed.

Lemma Array_sort_StronglySorted (l : list A) :
  Forall P l -> StronglySorted (may_precede f) (Array_sort f l).
Proof.
  induction 1 as [| x l Px Pl IH]; cbn [Array_sort].
  - constructor.
  - apply insert_StronglySorted; auto using Array_sort_Forall.
Qed.

Lemma StronglySorted_nth (R : A -> A -> Prop) (l : list A) :
  StronglySorted R l ->
  forall i j x y, (i < j)%nat ->
    nth_error l i = Some x -> nth_error l j = Some y -> R x y.
Proof.
  induction 1 as [| a l Hs IH Hall]; intros i j x y Hij Hi Hj.
  - destruct i; discriminate.
  - destruct j as [| j]; [lia|]. cbn [nth_error] in Hj.
    destruct i as [| i]; cbn [nth_error] in Hi.
    + inversion Hi; subst. rewrite Forall_forall in Hall.
      apply Hall. eapply nth_error_In; eassumption.
    + apply (IH i j); auto. lia.
Qed.

(** In a sorted sequence, an element that has to come after another one
    does. *)
Lemma sorted_positions (l : list A) (a b : A) :
  Forall P l -> StronglySorted (may_precede f) l ->
  sorts_after f b a = true ->
  forall i j, nth_error l i = Some a -> nth_error l j = Some b -> (i < j)%nat.
Proof.
  intros Pl Hs Hba i j Hi Hj.
  destruct (Nat.lt_trichotomy i j) as [Hlt | [Heq | Hgt]]; [exact Hlt | |].
  - subst j. rewrite Hi in Hj. inversion Hj; subst b.
    rewrite Forall_forall in Pl.
    assert (Pa : P a) by (eapply Pl, nth_error_In; eassumption).
    rewrite (after_asym a a Pa Pa Hba) in Hba. discriminate.
  - pose proof (StronglySorted_nth _ l Hs j i b a Hgt Hj Hi) as Hp.
    unfold may_precede in Hp. congruence.
Qed.

(** Two sorted arrangements of the same elements agree when only identical
    elements tie. *)
Lemma sorted_perm_unique (l1 : list A) : forall l2,
  Forall P l1 ->
  (forall x y, In x l1 -> In y l1 ->
     may_precede f x y -> may_precede f y x -> x = y) ->
  Permutation l1 l2 ->
  StronglySorted (may_precede f) l1 -> StronglySorted (may_precede f) l2 ->
  l1 = l2.
Proof.
  induction l1 as [| a l1 IH]; intros l2 Pl Hanti Hperm Hs1 Hs2.
  - apply Permutation_nil in Hperm. now subst.
  - destruct l2 as [| b l2].
    + apply Permutation_sym, Permutation_nil in Hperm. discriminate.
    + inversion Hs1 as [| ? ? Hs1' Ha]; subst.
      inversion Hs2 as [| ? ? Hs2' Hb]; subst.
      inversion Pl as [| ? ? Pa Pl']; subst.
      rewrite Forall_forall in Ha, Hb.
      assert (Eab : a = b).
      { assert (Ina : In a (b :: l2))
          by (eapply Permutation_in; [exact Hperm | now left]).
        assert (Inb : In b (a :: l1))
          by (eapply Permutation_in;
              [apply Permutation_sym; exact Hperm | now left]).
        destruct Ina as [E | Ina]; [now subst|].
        destruct Inb as [E | Inb]; [now subst|].
        apply Hanti; [now left | now right | now apply Ha | now apply Hb]. }
      subst b. f_equal.
      apply IH; auto.
      * intros x y Hx Hy. apply Hanti; now right.
      * eapply Permutation_cons_inv; exact Hperm.
Qed.
(** The sort is stable: the elements that tie with [x] stay in the order
    of the input. *)
Lemma insert_stable (x y : A) (l : list A) :
  P x -> P y -> Forall P l ->
  filter (ties f x) (insert f y l) = filter (ties f x) (y :: l).
Proof.
  intros Px Py Pl. induction l as [| z l IH]; [reflexivity|].
  inversion Pl as [| ? ? Pz Pl']; subst. cbn [insert].
  destruct (sorts_after f y z) eqn:E; [| reflexivity].
  cbn [filter]. rewrite (IH Pl'). cbn [filter].
  destruct (ties f x z) eqn:Tz; [| reflexivity].
  destruct (ties f x y) eqn:Ty; [| reflexivity].
  exfalso. unfold ties in Tz, Ty.
  apply andb_true_iff in Tz, Ty.
  destruct Tz as [Tz1 Tz2], Ty as [Ty1 Ty2].
  apply negb_true_iff in Tz1, Tz2, Ty1, Ty2.
  pose proof (precede_trans y x z Py Px Pz Ty2 Tz1) as C.
  unfold may_precede in C. congruence.
Qed.

Lemma Array_sort_stable (x : A) (l : list A) :
  P x -> Forall P l ->
  filter (ties f x) (Array_sort f l) = filter (ties f x) l.
Proof.
  intros Px Pl. induction Pl as [| y l Py Pl IH]; [reflexivity|].
  cbn [Array_sort].
  rewrite insert_stable by auto using Array_sort_Forall.
  cbn [filter]. now rewrite IH.
Qed.

(** A sorted arrangement that keeps the ties in the order of the input is
    the result of the reference algorithm. *)
Lemma sorted_stable_unique (l1 : list A) : forall l2,
  Forall P l1 -> Permutation l1 l2 ->
  StronglySorted (may_precede f) l1 -> StronglySorted (may_precede f) l2 ->
  (forall x, In x l1 -> filter (ties f x) l1 = filter (ties f x) l2) ->
  l1 = l2.
Proof.
  induction l1 as [| a l1 IH]; intros l2 Pl Hperm Hs1 Hs2 Hst.
  - apply Permutation_nil in Hperm. now subst.
  - destruct l2 as [| b l2].
    + apply Permutation_sym, Permutation_nil in Hperm. discriminate.
    + inversion Hs1 as [| ? ? Hs1' Ha]; subst.
      inversion Hs2 as [| ? ? Hs2' Hb]; subst.
      inversion Pl as [| ? ? Pa Pl']; subst.
      rewrite Forall_forall in Ha, Hb.
      assert (Raa : sorts_after f a a = false).
      { destruct (sorts_after f a a) eqn:E; [| reflexivity].
        now rewrite (after_asym a a Pa Pa E) in E. }
      assert (Eab : a = b).
      { assert (Ina : In a (b :: l2))
          by (eapply Permutation_in; [exact Hperm | now left]).
        assert (Inb : In b (a :: l1))
          by (eapply Permutation_in;
              [apply Permutation_sym; exact Hperm | now left]).
        destruct Ina as [E | Ina]; [now subst|].
        destruct Inb as [E | Inb]; [now subst|].
        pose proof (Hst a (or_introl eq_refl)) as F. cbn [filter] in F.
        assert (Taa : ties f a a = true) by (unfold ties; now rewrite Raa).
        assert (Tab : ties f a b = true).
        { unfold ties. rewrite (Ha b Inb), (Hb a Ina). reflexivity. }
        rewrite Taa, Tab in F. now inversion F. }
      subst b. f_equal.
      apply IH; auto.
      * eapply Permutation_cons_inv; exact Hperm.
      * intros x Hx. pose proof (Hst x (or_intror Hx)) as F.
        cbn [filter] in F. destruct (ties f x a); [now inversion F | exact F].
Qed.

(** Every stable sort gives the result of the reference algorithm. *)
Lemma stable_sort_unique (l out : list A) :
  Forall P l -> Permutation l out ->
  StronglySorted (may_precede f) out ->
  (forall x, In x l -> filter (ties f x) out = filter (ties f x) l) ->
  out = Array_sort f l.
Proof.
  intros Pl Hperm Hs Hst.
  assert (Pout : Forall P out) by (eapply Permutation_Forall; eassumption).
  apply sorted_stable_unique; auto.
  - eapply perm_trans; [apply Permutation_sym; exact Hperm|].
    apply Array_sort_perm.
  - now apply Array_sort_StronglySorted.
  - intros x Hx.
    assert (Ix : In x l)
      by (eapply Permutation_in; [apply Permutation_sym|]; eassumption).
    rewrite (Hst x Ix). symmetry. apply Array_sort_stable; auto.
    rewrite Forall_forall in Pl. auto.
Qed.
End Consistent.
End SortFacts.

(** Occurrences at ordered positions split the sequence. *)
Lemma positions_split {A} (l : list A) (a b : A) (i j : nat) :
  (i < j)%nat -> nth_error l i = Some a -> nth_error l j = Some b ->
  exists l1 l2 l3, l = l1 ++ a :: l2 ++ b :: l3.
Proof.
  intros Hij Hi Hj.
  destruct (nth_error_split l i Hi) as [l1 [r [El Hlen]]].
  subst l. rewrite nth_error_app2 in Hj by lia.
  rewrite Hlen in Hj.
  destruct (j - i)%nat as [| k] eqn:Ek; [lia|]. cbn [nth_error] in Hj.
  destruct (nth_error_split r k Hj) as [l2 [l3 [Er _]]].
  subst r. now exists l1, l2, l3.
Qed.


(** * The merge sort is a host algorithm too *)

Lemma pairs_ind {B : Type} (Q : list B -> Prop) :
  Q [] -> (forall a, Q [a]) ->
  (forall a b rest, Q rest -> Q (a :: b :: rest)) ->
  forall l, Q l.
Proof.
  intros Q0 Q1 Q2 l.
  assert (Both : Q l /\ forall a, Q (a :: l)).
  { induction l as [| b l [IH1 IH2]].
    - split; [exact Q0 | exact Q1].
    - split; [apply IH2|]. intros a. now apply Q2. }
  exact (proj1 Both).
Qed.

Lemma filter_none {B : Type} (p : B -> bool) (l : list B) :
  Forall (fun z => p z = false) l -> filter p l = [].
Proof.
  induction 1 as [| z l Hz _ IH]; cbn [filter]; [reflexivity|].
  now rewrite Hz.
Qed.

Section MergeFacts.
Context {A : Type}.
Variable f : A -> A -> float.

Lemma merge_nil_l (r : list A) : merge f [] r = r.
Proof. now destruct r. Qed.

Lemma merge_nil_r (l : list A) : merge f l [] = l.
Proof. now destruct l. Qed.

Lemma merge_cons (x y : A) (l r : list A) :
  merge f (x :: l) (y :: r)
  = if sorts_after f x y then y :: merge f (x :: l) r
    else x :: merge f l (y :: r).
Proof. reflexivity. Qed.

Lemma merge_perm (l : list A) : forall r, Permutation (l ++ r) (merge f l r).
Proof.
  induction l as [| x l IHl]; [intros r; now rewrite merge_nil_l|].
  induction r as [| y r IHr].
  - rewrite merge_nil_r, app_nil_r. reflexivity.
  - rewrite merge_cons. destruct (sorts_after f x y).
    + eapply perm_trans; [| apply perm_skip, IHr].
      apply Permutation_sym, (Permutation_cons_app (x :: l) r y).
      reflexivity.
    + cbn [app]. apply perm_skip, IHl.
Qed.

Lemma merge_Forall (Q : A -> Prop) (l r : list A) :
  Forall Q l -> Forall Q r -> Forall Q (merge f l r).
Proof.
  intros Hl Hr. eapply Permutation_Forall; [apply merge_perm|].
  apply Forall_app. now split.
Qed.

Lemma merge_pairs_length (runs : list (list A)) :
  (2 * List.length (merge_pairs f runs) <= S (List.length runs))%nat.
Proof.
  induction runs as [| a | a b rest IH] using pairs_ind;
    cbn [merge_pairs List.length] in *; lia.
Qed.

Lemma merge_pairs_perm (runs : list (list A)) :
  Permutation (List.concat runs) (List.concat (merge_pairs f runs)).
Proof.
  induction runs as [| a | a b rest IH] using pairs_ind;
    cbn [merge_pairs List.concat]; try reflexivity.
  rewrite app_assoc. apply Permutation_app; [apply merge_perm | exact IH].
Qed.

Lemma merge_pairs_Forall (Q : A -> Prop) (runs : list (list A)) :
  Forall (Forall Q) runs -> Forall (Forall Q) (merge_pairs f runs).
Proof.
  induction runs as [| a | a b rest IH] using pairs_ind;
    cbn [merge_pairs]; intros HQ; try exact HQ.
  inversion HQ as [| ? ? Qa HQ']; subst.
  inversion HQ' as [| ? ? Qb HQ'']; subst.
  constructor; [now apply merge_Forall | now apply IH].
Qed.

Section ConsistentMerge.
Variable P : A -> Prop.
Hypothesis after_asym :
  forall x y, P x -> P y ->
    sorts_after f x y = true -> sorts_after f y x = false.
Hypothesis precede_trans :
  forall x y z, P x -> P y -> P z ->
    may_precede f x y -> may_precede f y z -> may_precede f x z.

Lemma merge_StronglySorted (l : list A) : forall r,
  Forall P l -> Forall P r ->
  StronglySorted (may_precede f) l -> StronglySorted (may_precede f) r ->
  StronglySorted (may_precede f) (merge f l r).
Proof.
  induction l as [| x l IHl];
    [intros r _ _ _ Hr; now rewrite merge_nil_l|].
  induction r as [| y r IHr]; intros Pl Pr Hl Hr.
  - now rewrite merge_nil_r.
  - inversion Pl as [| ? ? Px Pl']; subst.
    inversion Pr as [| ? ? Py Pr']; subst.
    inversion Hl as [| ? ? Hl' Hx]; subst.
    inversion Hr as [| ? ? Hr' Hy]; subst.
    rewrite merge_cons. destruct (sorts_after f x y) eqn:E.
    + constructor; [now apply IHr|].
      assert (Hyx : may_precede f y x) by now apply after_asym.
      apply merge_Forall; [| exact Hy].
      constructor; [exact Hyx|].
      rewrite Forall_forall in Hx, Pl' |- *. intros z Hz.
      apply (precede_trans y x z); auto.
    + constructor; [now apply IHl|].
      apply merge_Forall; [exact Hx|].
      constructor; [exact E|].
      rewrite Forall_forall in Hy, Pr' |- *. intros z Hz.
      apply (precede_trans x y z); auto.
Qed.

(** The merge keeps ties in order: those of the left run come first. *)
Lemma merge_stable (t : A) (l : list A) : forall r,
  P t -> Forall P l -> Forall P r ->
  StronglySorted (may_precede f) l ->
  filter (ties f t) (merge f l r)
  = filter (ties f t) l ++ filter (ties f t) r.
Proof.
  intros r Pt. revert r.
  induction l as [| x l IHl]; [intros r _ _ _; now rewrite merge_nil_l|].
  induction r as [| y r IHr]; intros Pl Pr Hl.
  - now rewrite merge_nil_r, app_nil_r.
  - inversion Pl as [| ? ? Px Pl']; subst.
    inversion Pr as [| ? ? Py Pr']; subst.
    inversion Hl as [| ? ? Hl' Hx]; subst.
    rewrite merge_cons. destruct (sorts_after f x y) eqn:E.
    + assert (Hnone : ties f t y = true ->
                      Forall (fun z => ties f t z = false) (x :: l)).
      { intros Ty. unfold ties in Ty. apply andb_true_iff in Ty.
        destruct Ty as [Ty1 Ty2]. apply negb_true_iff in Ty1, Ty2.
        assert (Hx' : Forall (may_precede f x) (x :: l)).
        { constructor; [| exact Hx].
          destruct (sorts_after f x x) eqn:Exx; [| exact Exx].
          now apply after_asym. }
        rewrite Forall_forall in Hx', Pl |- *. intros z Hz.
        destruct (ties f t z) eqn:Tz; [| reflexivity].
        exfalso. unfold ties in Tz. apply andb_true_iff in Tz.
        destruct Tz as [Tz1 Tz2]. apply negb_true_iff in Tz1, Tz2.
        pose proof (precede_trans z t y (Pl z Hz) Pt Py Tz2 Ty1) as Hzy.
        pose proof (precede_trans x z y Px (Pl z Hz) Py (Hx' z Hz) Hzy) as C.
        unfold may_precede in C. congruence. }
      specialize (IHr Pl Pr' Hl). set (xl := x :: l) in *.
      cbn [filter]. rewrite IHr.
      destruct (ties f t y) eqn:Ty; [| reflexivity].
      now rewrite (filter_none _ _ (Hnone eq_refl)).
    + cbn [filter]. rewrite (IHl (y :: r) Pl' Pr Hl'). cbn [filter].
      now destruct (ties f t x).
Qed.

Lemma merge_pairs_StronglySorted (runs : list (list A)) :
  Forall (Forall P) runs ->
  Forall (StronglySorted (may_precede f)) runs ->
  Forall (StronglySorted (may_precede f)) (merge_pairs f runs).
Proof.
  induction runs as [| a | a b rest IH] using pairs_ind;
    cbn [merge_pairs]; intros HP Hs; try exact Hs.
  inversion HP as [| ? ? Pa HP']; subst.
  inversion HP' as [| ? ? Pb HP'']; subst.
  inversion Hs as [| ? ? Sa Hs']; subst.
  inversion Hs' as [| ? ? Sb Hs'']; subst.
  constructor; [now apply merge_StronglySorted | now apply IH].
Qed.

Lemma merge_pairs_stable (t : A) (runs : list (list A)) :
  P t -> Forall (Forall P) runs ->
  Forall (StronglySorted (may_precede f)) runs ->
  filter (ties f t) (List.concat (merge_pairs f runs))
  = filter (ties f t) (List.concat runs).
Proof.
  intros Pt.
  induction runs as [| a | a b rest IH] using pairs_ind;
    cbn [merge_pairs List.concat]; intros HP Hs; try reflexivity.
  inversion HP as [| ? ? Pa HP']; subst.
  inversion HP' as [| ? ? Pb HP'']; subst.
  inversion Hs as [| ? ? Sa Hs']; subst.
  inversion Hs' as [| ? ? Sb Hs'']; subst.
  rewrite !filter_app, merge_stable, IH by assumption.
  now rewrite app_assoc.
Qed.

(** With one pass for every run there are enough passes: the runs become
    one, sorted, with the ties in the order in which the runs had them. *)
Lemma merge_all_spec (fuel : nat) : forall runs,
  (List.length runs <= S fuel)%nat ->
  Forall (Forall P) runs ->
  Forall (StronglySorted (may_precede f)) runs ->
  Permutation (List.concat runs) (merge_all f fuel runs) /\
  StronglySorted (may_precede f) (merge_all f fuel runs) /\
  (forall t, P t ->
     filter (ties f t) (merge_all f fuel runs)
     = filter (ties f t) (List.concat runs)).
Proof.
  induction fuel as [| fuel IH]; intros runs Hlen HP Hs.
  - destruct runs as [| a [| b rest]]; cbn [List.length] in Hlen; [| | lia].
    + cbn. repeat split; constructor.
    + cbn [merge_all List.concat]. rewrite app_nil_r.
      inversion Hs; subst. repeat split; auto.
  - destruct runs as [| a [| b rest]].
    + cbn. repeat split; constructor.
    + cbn [merge_all List.concat]. rewrite app_nil_r.
      inversion Hs; subst. repeat split; auto.
    + cbn [merge_all].
      pose proof (merge_pairs_length (a :: b :: rest)) as Hl.
      cbn [List.length] in Hlen, Hl.
      destruct (IH (merge_pairs f (a :: b :: rest))) as (Hp & Hso & Hst).
      * cbn [List.length]. lia.
      * now apply merge_pairs_Forall.
      * now apply merge_pairs_StronglySorted.
      * split; [| split].
        -- eapply perm_trans; [apply merge_pairs_perm | exact Hp].
        -- exact Hso.
        -- intros t Pt. rewrite (Hst t Pt).
           now apply merge_pairs_stable.
Qed.
End ConsistentMerge.
End MergeFacts.

Lemma concat_singletons {A : Type} (l : list A) :
  List.concat (map (fun x => [x]) l) = l.
Proof.
  induction l as [| x l IH]; cbn; [reflexivity | now rewrite IH].
Qed.

Lemma insertion_host_conforming : conforming insertion_host.
Proof.
  intros A f P Hasym Htrans l Pl. unfold insertion_host.
  split; [apply Array_sort_perm | split].
  - now apply (Array_sort_StronglySorted f P).
  - intros x Hx. apply (Array_sort_stable f P); auto.
    rewrite Forall_forall in Pl. auto.
Qed.

Lemma merge_host_conforming : conforming merge_host.
Proof.
  intros A f P Hasym Htrans l Pl. unfold merge_host, merge_sort.
  destruct (merge_all_spec f P Hasym Htrans (List.length l)
              (map (fun x => [x]) l)) as (Hp & Hs & Hst).
  - rewrite length_map. lia.
  - apply Forall_map. eapply Forall_impl; [| exact Pl].
    intros x Px. now constructor.
  - apply Forall_map. apply Forall_forall. intros x _.
    repeat constructor.
  - rewrite concat_singletons in Hp, Hst.
    split; [exact Hp | split; [exact Hs|]].
    intros x Hx. apply Hst. rewrite Forall_forall in Pl. auto.
Qed.


(** * Facts about the comparator *)

Lemma priorityDiff_sign (p q : Priority) :
  is_nan (priorityRank q - priorityRank p)%float = false /\
  (ford (priorityRank q - priorityRank p)%float ?= 0) = (rankZ q ?= rankZ p).
Proof. destruct p, q; split; vm_compute; reflexivity. Qed.

Lemma strict_neq_zero (v : float) :
  is_nan v = false -> strict_neq v 0 = negb (ford v =? 0).
Proof.
  intros N. unfold strict_neq. rewrite eqb_ford by (assumption || reflexivity).
  now rewrite ford_zero.
Qed.

Lemma strict_neq_nan (v : float) : is_nan v = true -> strict_neq v 0 = true.
Proof.
  intros N. unfold strict_neq.
  destruct (nan_compare v 0 (or_introl N)) as [_ [E _]]. now rewrite E.
Qed.

Section RankFacts.
Context `{Collator}.

Lemma localeCompare_sign (s t : string) :
  is_nan (localeCompare s t) = false /\
  (ford (localeCompare s t) ?= 0) = collate s t.
Proof.
  unfold localeCompare. destruct (collate s t); split; vm_compute; reflexivity.
Qed.

(** A NaN key makes the comparator answer NaN. *)
Lemma compareFn_nan (a b : DerivedTask) :
  is_nan (roi0 a) = true \/ is_nan (roi0 b) = true ->
  is_nan (compareFn a b) = true.
Proof.
  intros N. unfold compareFn.
  assert (Hd : is_nan (roi0 b - roi0 a)%float = true)
    by (apply sub_nan; tauto).
  now rewrite (strict_neq_nan _ Hd).
Qed.

(** Without NaN keys, the sign of the comparator is [task_order]. *)
Lemma compareFn_sign (a b : DerivedTask) :
  is_nan (roi0 a) = false -> is_nan (roi0 b) = false ->
  is_nan (SortCompare compareFn a b) = false /\
  (ford (SortCompare compareFn a b) ?= 0) = task_order a b.
Proof.
  intros Na Nb. unfold SortCompare, compareFn, task_order.
  pose proof (sub_sign (roi0 b) (roi0 a) Nb Na) as Hs.
  rewrite (is_infinity_ford (roi0 a)).
  rewrite (is_infinity_ford (roi0 b)) in Hs.
  destruct (Z.eqb_spec (ford (roi0 b)) (ford (roi0 a))) as [E | NE].
  - rewrite E in Hs |- *. rewrite Z.compare_refl.
    destruct (Z.abs (ford (roi0 a)) =? sf_big); cbn [andb] in Hs.
    + rewrite (strict_neq_nan _ Hs), Hs. split; reflexivity.
    + destruct Hs as [Nd Sd]. rewrite Z.compare_refl in Sd.
      apply Z.compare_eq_iff in Sd.
      rewrite (strict_neq_zero _ Nd), Sd. cbn [Z.eqb negb].
      destruct (priorityDiff_sign (priority a) (priority b)) as [Np Sp].
      rewrite (strict_neq_zero _ Np).
      destruct (Z.eqb_spec (ford (priorityRank (priority b)
                                  - priorityRank (priority a))%float) 0)
        as [Ep | NEp]; cbn [negb].
      * rewrite Ep in Sp. cbn in Sp. rewrite <- Sp.
        destruct (localeCompare_sign (title a) (title b)) as [Nl Sl].
        rewrite Nl. split; [exact Nl | exact Sl].
      * rewrite Np. split; [exact Np|]. rewrite Sp.
        destruct (rankZ (priority b) ?= rankZ (priority a)) eqn:Ec;
          try reflexivity.
        apply Z.compare_eq_iff in Sp. contradiction.
  - rewrite andb_false_r in Hs. destruct Hs as [Nd Sd].
    assert (Hnz : ford (roi0 b - roi0 a)%float <> 0).
    { intros Z0. rewrite Z0 in Sd. cbn in Sd. symmetry in Sd.
      apply Z.compare_eq_iff in Sd. contradiction. }
    rewrite (strict_neq_zero _ Nd).
    destruct (Z.eqb_spec (ford (roi0 b - roi0 a)%float) 0); [contradiction|].
    cbn [negb]. rewrite Nd. split; [exact Nd|]. rewrite Sd.
    destruct (ford (roi0 b) ?= ford (roi0 a)) eqn:Ec; try reflexivity.
    apply Z.compare_eq_iff in Ec. contradiction.
Qed.

Lemma sorts_after_order (a b : DerivedTask) :
  is_nan (roi0 a) = false -> is_nan (roi0 b) = false ->
  sorts_after compareFn a b
  = match task_order a b with Gt => true | _ => false end.
Proof.
  intros Na Nb. destruct (compareFn_sign a b Na Nb) as [Nv Sv].
  unfold sorts_after. rewrite ltb_ford by (assumption || reflexivity).
  rewrite ford_zero, <- Sv.
  destruct (Z.compare_spec (ford (SortCompare compareFn a b)) 0);
    destruct (Z.ltb_spec 0 (ford (SortCompare compareFn a b)));
    try reflexivity; lia.
Qed.

Lemma sorts_after_nan (a b : DerivedTask) :
  is_nan (roi0 a) = true \/ is_nan (roi0 b) = true ->
  sorts_after compareFn a b = false.
Proof.
  intros N. unfold sorts_after, SortCompare.
  now rewrite (compareFn_nan a b N).
Qed.

Lemma task_order_antisym (a b : DerivedTask) :
  task_order b a = CompOpp (task_order a b).
Proof.
  unfold task_order. rewrite !is_infinity_ford.
  rewrite (Z.compare_antisym (ford (roi0 b)) (ford (roi0 a))).
  destruct (Z.compare_spec (ford (roi0 b)) (ford (roi0 a))) as [E | L | G];
    cbn [CompOpp]; try reflexivity.
  rewrite E. destruct (Z.abs (ford (roi0 a)) =? sf_big); [reflexivity|].
  rewrite (Z.compare_antisym (rankZ (priority b)) (rankZ (priority a))).
  destruct (rankZ (priority b) ?= rankZ (priority a)); cbn [CompOpp];
    try reflexivity.
  apply collate_antisym.
Qed.

Lemma task_order_trans (a b c : DerivedTask) :
  task_order a b <> Gt -> task_order b c <> Gt -> task_order a c <> Gt.
Proof.
  unfold task_order. rewrite !is_infinity_ford.
  destruct (Z.compare_spec (ford (roi0 b)) (ford (roi0 a))) as [E1 | L1 | G1];
    destruct (Z.compare_spec (ford (roi0 c)) (ford (roi0 b))) as [E2 | L2 | G2];
    destruct (Z.compare_spec (ford (roi0 c)) (ford (roi0 a))) as [E3 | L3 | G3];
    try congruence; try lia.
  rewrite <- E1.
  destruct (Z.abs (ford (roi0 b)) =? sf_big); [congruence|].
  destruct (Z.compare_spec (rankZ (priority b)) (rankZ (priority a)));
    destruct (Z.compare_spec (rankZ (priority c)) (rankZ (priority b)));
    destruct (Z.compare_spec (rankZ (priority c)) (rankZ (priority a)));
    try congruence; try lia.
  apply collate_trans.
Qed.

(** The comparator never asks for both orders, whatever the keys. *)
Lemma compareFn_asym (a b : DerivedTask) :
  sorts_after compareFn a b = true -> sorts_after compareFn b a = false.
Proof.
  destruct (is_nan (roi0 a)) eqn:Na;
    [intros _; apply sorts_after_nan; tauto|].
  destruct (is_nan (roi0 b)) eqn:Nb;
    [intros _; apply sorts_after_nan; tauto|].
  rewrite !sorts_after_order by assumption.
  rewrite (task_order_antisym a b).
  destruct (task_order a b); cbn [CompOpp]; congruence.
Qed.

Lemma compareFn_trans (a b c : DerivedTask) :
  is_nan (roi0 a) = false -> is_nan (roi0 b) = false ->
  is_nan (roi0 c) = false ->
  may_precede compareFn a b -> may_precede compareFn b c ->
  may_precede compareFn a c.
Proof.
  intros Na Nb Nc. unfold may_precede.
  rewrite !sorts_after_order by assumption.
  pose proof (task_order_trans a b c) as T.
  destruct (task_order a b), (task_order b c), (task_order a c);
    try congruence; intros _ _; exfalso; apply T; congruence.
Qed.

Lemma sortedTasks_StronglySorted (tasks : list DerivedTask) :
  NoNaN tasks -> StronglySorted (may_precede compareFn) (sortedTasks tasks).
Proof.
  intros Hn. unfold sortedTasks.
  apply (Array_sort_StronglySorted compareFn
           (fun t => is_nan (roi0 t) = false)).
  - intros x y _ _. apply compareFn_asym.
  - apply compareFn_trans.
  - exact Hn.
Qed.

(** Every sorted and stable arrangement of an input without NaN keys is
    the result: the choice of the algorithm does not show. *)
Lemma sortedTasks_any_stable_sort (tasks out : list DerivedTask) :
  NoNaN tasks -> Permutation tasks out ->
  StronglySorted (may_precede compareFn) out ->
  (forall t, In t tasks ->
     filter (ties compareFn t) out = filter (ties compareFn t) tasks) ->
  out = sortedTasks tasks.
Proof.
  intros Hn Hp Hs Hst. unfold sortedTasks.
  apply (stable_sort_unique compareFn (fun t => is_nan (roi0 t) = false));
    auto.
  - intros x y _ _. apply compareFn_asym.
  - apply compareFn_trans.
Qed.

(** When the comparator puts [b] after [a], every occurrence of [a] in
    the result is before every occurrence of [b]. *)
Lemma sortedTasks_Precedes (tasks : list DerivedTask) (a b : DerivedTask) :
  NoNaN tasks -> In a tasks -> In b tasks ->
  task_order a b = Lt ->
  Precedes (sortedTasks tasks) a b.
Proof.
  intros Hn Ia Ib Hlt.
  assert (Hn' : NoNaN (sortedTasks tasks))
    by (apply Array_sort_Forall; exact Hn).
  assert (Na : is_nan (roi0 a) = false)
    by (unfold NoNaN in Hn; rewrite Forall_forall in Hn; now apply Hn).
  assert (Nb : is_nan (roi0 b) = false)
    by (unfold NoNaN in Hn; rewrite Forall_forall in Hn; now apply Hn).
  assert (Hba : sorts_after compareFn b a = true).
  { rewrite sorts_after_order by assumption.
    rewrite (task_order_antisym a b), Hlt. reflexivity. }
  assert (Hpos : forall i j,
             nth_error (sortedTasks tasks) i = Some a ->
             nth_error (sortedTasks tasks) j = Some b -> (i < j)%nat).
  { apply (sorted_positions compareFn (fun t => is_nan (roi0 t) = false)).
    - intros x y _ _. apply compareFn_asym.
    - exact Hn'.
    - now apply sortedTasks_StronglySorted.
    - exact Hba. }
  split; [| exact Hpos].
  assert (Ia' : In a (sortedTasks tasks))
    by (eapply Permutation_in; [apply Array_sort_perm | exact Ia]).
  assert (Ib' : In b (sortedTasks tasks))
    by (eapply Permutation_in; [apply Array_sort_perm | exact Ib]).
  apply In_nth_error in Ia', Ib'.
  destruct Ia' as [i Hi], Ib' as [j Hj].
  apply (positions_split _ a b i j); auto.
Qed.
End RankFacts.


(** * Facts about the decimal digits *)

Lemma decimal_fuel_indep (f1 : nat) : forall (f2 : nat) (n : N),
  (0 < f1)%nat -> (0 < f2)%nat ->
  (n < 2 ^ N.of_nat f1)%N -> (n < 2 ^ N.of_nat f2)%N ->
  decimal_fuel f1 n = decimal_fuel f2 n.
Proof.
  induction f1 as [| f1 IH]; intros f2 n H1 H2 B1 B2; [lia|].
  destruct f2 as [| f2]; [lia|]. cbn [decimal_fuel].
  destruct (N.ltb_spec n 10) as [Hs | Hl]; [reflexivity|].
  f_equal.
  rewrite Nat2N.inj_succ, N.pow_succ_r' in B1, B2.
  assert (D1 : (n / 10 < 2 ^ N.of_nat f1)%N)
    by (apply N.Div0.div_lt_upper_bound; lia).
  assert (D2 : (n / 10 < 2 ^ N.of_nat f2)%N)
    by (apply N.Div0.div_lt_upper_bound; lia).
  destruct f1 as [| f1]; [cbn in B1; lia|].
  destruct f2 as [| f2]; [cbn in B2; lia|].
  apply IH; auto; lia.
Qed.

Lemma decimal_bound (n : N) : (n < 2 ^ N.of_nat (S (N.to_nat (N.log2 n))))%N.
Proof.
  rewrite Nat2N.inj_succ, N2Nat.id.
  destruct (N.eq_dec n 0) as [-> | Hn]; [cbn; lia|].
  apply N.log2_spec. lia.
Qed.

Lemma decimal_small (n : N) : (n < 10)%N -> decimal n = [digit_char n].
Proof.
  intros Hn. unfold decimal. cbn [decimal_fuel].
  destruct (N.ltb_spec n 10); [reflexivity | lia].
Qed.

Lemma decimal_step (n : N) :
  (10 <= n)%N -> decimal n = decimal (n / 10) ++ [digit_char (n mod 10)].
Proof.
  intros Hn. unfold decimal at 1. cbn [decimal_fuel].
  destruct (N.ltb_spec n 10); [lia|]. f_equal.
  pose proof (decimal_bound n) as B.
  rewrite Nat2N.inj_succ, N.pow_succ_r' in B.
  assert (L : (0 < N.to_nat (N.log2 n))%nat).
  { destruct (N.to_nat (N.log2 n)); [cbn in B; lia | lia]. }
  apply decimal_fuel_indep.
  - exact L.
  - lia.
  - apply N.Div0.div_lt_upper_bound; lia.
  - apply decimal_bound.
Qed.

Lemma decimal_fuel_digits (fuel : nat) : forall n,
  Forall is_digit (decimal_fuel fuel n).
Proof.
  induction fuel as [| fuel IH]; intros n; cbn [decimal_fuel].
  - constructor.
  - destruct (N.ltb_spec n 10).
    + repeat constructor. now exists n.
    + apply Forall_app. split; [apply IH|].
      repeat constructor. exists (n mod 10)%N. split; [|reflexivity].
      apply N.mod_lt. lia.
Qed.

Lemma decimal_digits (n : N) : Forall is_digit (decimal n).
Proof. apply decimal_fuel_digits. Qed.

Lemma decimal_nonempty (n : N) : decimal n <> [].
Proof.
  unfold decimal. cbn [decimal_fuel].
  destruct (n <? 10)%N; [discriminate|].
  intros E. apply app_eq_nil in E. destruct E; discriminate.
Qed.

(** * Facts about [toFixed] *)

(** Two fraction digits: the integer part, a point, and the last two
    digits. *)
Lemma fixed_digits_two (n : N) :
  fixed_digits (Z.of_N n) 2
  = decimal (n / 100)
    ++ ["."%char; digit_char ((n / 10) mod 10); digit_char (n mod 10)].
Proof.
  unfold fixed_digits. rewrite N2Z.id.
  destruct (N.ltb_spec n 10) as [H1 | H1].
  - rewrite (decimal_small n H1).
    rewrite (N.div_small n 100), (N.div_small n 10), (N.mod_small n 10) by lia.
    reflexivity.
  - rewrite (decimal_step n H1).
    destruct (N.ltb_spec (n / 10) 10) as [H2 | H2].
    + rewrite (decimal_small _ H2).
      assert (E : (n / 100 = 0)%N).
      { apply N.div_small. 
        assert (n / 10 * 10 + n mod 10 = n)%N
          by (rewrite N.mul_comm; symmetry; apply N.div_mod; lia).
        pose proof (N.mod_lt n 10). lia. }
      rewrite E, (N.mod_small (n / 10) 10) by lia.
      reflexivity.
    + rewrite (decimal_step _ H2).
      replace (n / 10 / 10)%N with (n / 100)%N
        by (rewrite N.Div0.div_div; reflexivity).
      rewrite <- app_assoc. cbn [app].
      set (ip := decimal (n / 100)).
      set (d1 := digit_char ((n / 10) mod 10)).
      set (d0 := digit_char (n mod 10)).
      assert (Hlen : List.length (ip ++ [d1; d0]) = (List.length ip + 2)%nat)
        by (rewrite length_app; reflexivity).
      rewrite Hlen.
      assert (Hip : (0 < List.length ip)%nat).
      { pose proof (decimal_nonempty (n / 100)) as NE. fold ip in NE.
        destruct ip; [contradiction | cbn; lia]. }
      destruct (Nat.leb_spec (List.length ip + 2) 2); [lia|].
      rewrite Hlen.
      replace (List.length ip + 2 - 2)%nat with (List.length ip + 0)%nat by lia.
      rewrite firstn_app_2, skipn_app, skipn_all2 by lia.
      replace (List.length ip + 0 - List.length ip)%nat with 0%nat by lia.
      cbn [firstn skipn app]. rewrite app_nil_r. reflexivity.
Qed.

Lemma nearest_scaled_spec (num den : Z) :
  0 <= num -> 0 < den ->
  0 <= nearest_scaled num den 2 /\
  nearest_hundredth num den (Z.to_N (nearest_scaled num den 2)).
Proof.
  intros Hn Hd. unfold nearest_scaled, nearest_hundredth.
  change (10 ^ Z.of_nat 2) with 100.
  set (a := 2 * num * 100 + den).
  assert (Hq : 0 <= a / (2 * den)) by (apply Z.div_pos; lia).
  split; [exact Hq|].
  rewrite Z2N.id by exact Hq.
  pose proof (Z.div_mod a (2 * den) ltac:(lia)) as E.
  pose proof (Z.mod_pos_bound a (2 * den) ltac:(lia)) as B.
  set (q := a / (2 * den)) in *. set (r := a mod (2 * den)) in *.
  clearbody q r. subst a.
  replace (den * (2 * q - 1)) with (2 * den * q - den) by ring.
  replace (den * (2 * q + 1)) with (2 * den * q + den) by ring.
  lia.
Qed.

(** Below 10^21 the result has exactly two decimals and is the nearest
    hundredth of the double. *)
Lemma toFixed_two_decimals (q : float) :
  (abs q <? 1e21)%float = true ->
  exists n : N,
    toFixed q 2 = two_decimals (q <? 0)%float n /\
    nearest_hundredth (fst (abs_frac q)) (snd (abs_frac q)) n.
Proof.
  intros Hq.
  assert (Na : is_nan (abs q) = false).
  { destruct (is_nan (abs q)) eqn:E; [|reflexivity].
    destruct (nan_compare (abs q) 1e21 (or_introl E))
      as [L _]. congruence. }
  assert (Nq : is_nan q = false) by (now rewrite <- is_nan_abs).
  rewrite ltb_ford in Hq by (assumption || reflexivity).
  rewrite ford_abs in Hq. apply Z.ltb_lt in Hq.
  assert (E21 : ford 1e21 = 10 ^ 21 * 2 ^ 1074)
    by (vm_compute; reflexivity).
  rewrite E21 in Hq.
  assert (Hlt : 10 ^ 21 * 2 ^ 1074 < sf_big) by (vm_compute; reflexivity).
  assert (Iq : is_infinity q = false).
  { rewrite is_infinity_ford. apply Z.eqb_neq. lia. }
  destruct (abs_frac_ford q Iq) as [Hnum [Hden Hfrac]].
  destruct (nearest_scaled_spec _ _ Hnum Hden) as [Hn0 Hnear].
  exists (Z.to_N (nearest_scaled (fst (abs_frac q)) (snd (abs_frac q)) 2)).
  split; [| exact Hnear].
  unfold toFixed, is_finite, two_decimals. rewrite Nq, Iq. cbn [orb negb].
  destruct (abs_frac q) as [num den]. cbn [fst snd] in *.
  assert (P : 0 < 2 ^ 1074) by (apply Z.pow_pos_nonneg; lia).
  destruct (Z.leb_spec (10 ^ 21 * den) num) as [Hbig | Hsmall].
  - exfalso.
    assert (10 ^ 21 * den * 2 ^ 1074 <= num * 2 ^ 1074)
      by (apply Z.mul_le_mono_nonneg_r; lia).
    assert (Z.abs (ford q) * den < 10 ^ 21 * 2 ^ 1074 * den)
      by (apply Z.mul_lt_mono_pos_r; lia).
    lia.
  - f_equal. f_equal.
    rewrite <- (Z2N.id (nearest_scaled num den 2)) at 1 by exact Hn0.
    apply fixed_digits_two.
Qed.

(** *** The result is never the sentinel *)

Lemma is_digit_plain (c : ascii) : is_digit c -> plain c.
Proof.
  intros [d [Hd ->]]. unfold plain, digit_char.
  rewrite N_ascii_embedding; lia.
Qed.

Lemma decimal_plain (n : N) : Forall plain (decimal n).
Proof.
  eapply Forall_impl; [apply is_digit_plain | apply decimal_digits].
Qed.

Lemma plain_char (c : ascii) : (N_of_ascii c <? 128)%N = true -> plain c.
Proof. apply N.ltb_lt. Qed.

Lemma Forall_firstn_skipn {A} (Q : A -> Prop) (k : nat) (l : list A) :
  Forall Q l -> Forall Q (firstn k l) /\ Forall Q (skipn k l).
Proof.
  intros H. rewrite <- (firstn_skipn k l) in H.
  now apply Forall_app in H.
Qed.

Lemma fixed_digits_plain (n : Z) (f : nat) : Forall plain (fixed_digits n f).
Proof.
  unfold fixed_digits. destruct f as [| f]; [apply decimal_plain|].
  set (m := if (_ <=? _)%nat then _ else _).
  assert (Hm : Forall plain m).
  { subst m. destruct (_ <=? _)%nat; [| apply decimal_plain].
    apply Forall_app. split; [| apply decimal_plain].
    apply Forall_forall. intros c Hc. apply repeat_spec in Hc. subst c.
    now apply plain_char. }
  destruct (Forall_firstn_skipn plain (List.length m - S f) m Hm) as [H1 H2].
  apply Forall_app. split; [exact H1|].
  constructor; [now apply plain_char | exact H2].
Qed.

Lemma exponent_form_plain (s n : Z) : Forall plain (exponent_form s n).
Proof.
  unfold exponent_form.
  pose proof (decimal_plain (Z.to_N s)) as Hs.
  pose proof (decimal_plain (Z.to_N (n - 1))) as He.
  destruct (decimal (Z.to_N s)) as [| d [| d' rest]]; [constructor | |].
  - inversion Hs; subst.
    repeat (constructor; [assumption || now apply plain_char|]). exact He.
  - inversion Hs as [| ? ? Hd Hr]; subst.
    constructor; [exact Hd|]. constructor; [now apply plain_char|].
    apply Forall_app. split; [exact Hr|].
    repeat (constructor; [now apply plain_char|]). exact He.
Qed.

Lemma toFixed_chars (x : float) (f : nat) :
  exists l, toFixed x f = string_of_list_ascii l /\ Forall plain l.
Proof.
  unfold toFixed. eexists. split; [reflexivity|].
  destruct (is_finite x).
  - assert (Hs : Forall plain (if (x <? 0)%float then ["-"%char] else []))
      by (destruct (x <? 0)%float; repeat constructor; now apply plain_char).
    destruct (abs_frac x) as [num den].
    destruct (10 ^ 21 * den <=? num); apply Forall_app; split; auto.
    + unfold large_toString.
      destruct (shortest_digits 17 num (decimal_length num) 1) as [[s n] k].
      apply exponent_form_plain.
    + apply fixed_digits_plain.
  - unfold nonfinite_toString.
    destruct (is_nan x); [| destruct (x <? 0)%float];
      cbn [list_ascii_of_string];
      repeat (constructor; [now apply plain_char|]); constructor.
Qed.

Lemma toFixed_not_dash (x : float) (f : nat) : toFixed x f <> dash.
Proof.
  destruct (toFixed_chars x f) as [l [E Hl]]. rewrite E. intros D.
  apply (f_equal list_ascii_of_string) in D.
  rewrite list_ascii_of_string_of_list_ascii in D. subst l.
  inversion Hl as [| ? ? Hc _]; subst.
  unfold plain in Hc. vm_compute in Hc. discriminate.
Qed.


(** * calculateROI *)

Lemma positive_time_truthy (t : float) :
  (0 <? t)%float = true ->
  ToBoolean (Num t) = true /\ (t <=? 0)%float = false.
Proof.
  intros Ht.
  assert (Nt : is_nan t = false).
  { destruct (is_nan t) eqn:E; [|reflexivity].
    destruct (nan_compare 0 t (or_intror E)) as [L _]. congruence. }
  rewrite ltb_ford in Ht by (assumption || reflexivity).
  rewrite ford_zero in Ht. apply Z.ltb_lt in Ht.
  cbn [ToBoolean]. rewrite Nt, eqb_ford, leb_ford
    by (assumption || reflexivity).
  rewrite ford_zero.
  destruct (Z.eqb_spec (ford t) 0); [lia|].
  destruct (Z.leb_spec (ford t) 0); [lia|]. split; reflexivity.
Qed.

Lemma negative_truthy (r : float) :
  (r <? 0)%float = true -> ToBoolean (Num r) = true.
Proof.
  intros Hr.
  assert (Nr : is_nan r = false).
  { destruct (is_nan r) eqn:E; [|reflexivity].
    destruct (nan_compare r 0 (or_introl E)) as [L _]. congruence. }
  rewrite ltb_ford in Hr by (assumption || reflexivity).
  rewrite ford_zero in Hr. apply Z.ltb_lt in Hr.
  cbn [ToBoolean]. rewrite Nr, eqb_ford by (assumption || reflexivity).
  rewrite ford_zero. destruct (Z.eqb_spec (ford r) 0); [lia | reflexivity].
Qed.

Lemma calculateROI_defined (r t : float) :
  ToBoolean (Num r) = true -> (0 <? t)%float = true ->
  calculateROI (Num r) (Num t) = toFixed (r / t) 2.
Proof.
  intros Hr Ht. destruct (positive_time_truthy t Ht) as [Tt Lt].
  unfold calculateROI. cbn [ToNumber]. now rewrite Hr, Tt, Lt.
Qed.

(** The point of a two-decimal string is its third character from the
    end. *)
Lemma two_decimals_point (neg : bool) (n : N) (l : list ascii) :
  two_decimals neg n = string_of_list_ascii l ->
  nth_error (rev l) 2 = Some "."%char.
Proof.
  unfold two_decimals. intros E.
  apply (f_equal list_ascii_of_string) in E.
  rewrite !list_ascii_of_string_of_list_ascii in E. subst l.
  rewrite app_assoc, rev_app_distr. reflexivity.
Qed.

Lemma guard_dash (v w : value) :
  absent v || is_zero_value v
  || absent w || is_zero_value w || is_negative w = true ->
  calculateROI v w = dash.
Proof.
  intros H. unfold calculateROI.
  destruct v as [| | r]; try reflexivity.
  cbn [absent is_zero_value orb] in H. cbn [ToBoolean].
  destruct (r =? 0)%float; [reflexivity|]. cbn [orb] in *.
  destruct w as [| | t]; cbn [absent is_zero_value is_negative orb] in H;
    try (now rewrite orb_true_r); cbn [ToBoolean ToNumber].
  destruct (t =? 0)%float; [now rewrite orb_true_r|]. cbn [orb] in *.
  assert (Nt : is_nan t = false).
  { destruct (is_nan t) eqn:E; [|reflexivity].
    destruct (nan_compare t 0 (or_introl E)) as [L _]. congruence. }
  rewrite ltb_ford in H by (assumption || reflexivity).
  rewrite leb_ford by (assumption || reflexivity).
  apply Z.ltb_lt in H.
  destruct (Z.leb_spec (ford t) (ford 0)); [| lia].
  now rewrite !orb_true_r.
Qed.

(** C2: when the revenue is absent or zero, or the time is absent, zero
    or negative, [calculateROI] returns the dash; in particular for
    [(revenue, 0)], [(revenue, -5)] and [(0, time)], whatever the revenue
    and the time. *)
Theorem calculateROI_guard (v w : value) :
  (absent v || is_zero_value v
   || absent w || is_zero_value w || is_negative w = true ->
   calculateROI v w = dash) /\
  calculateROI v (Num 0) = dash /\
  calculateROI v (Num (-5)) = dash /\
  calculateROI (Num 0) w = dash.
Proof.
  split; [apply guard_dash|].
  repeat split; apply guard_dash;
    try (destruct (absent v || is_zero_value v)); reflexivity.
Qed.

Lemma calculateROI_guard_witness :
  calculateROI Undefined (Num 4) = dash /\
  calculateROI (Num 100) Null = dash /\
  calculateROI (Num 100) (Num (-5)) = dash.
Proof.
  split; [| split].
  - apply (proj1 (calculateROI_guard Undefined (Num 4))). reflexivity.
  - apply (proj1 (calculateROI_guard (Num 100) Null)). reflexivity.
  - apply (proj1 (calculateROI_guard (Num 100) (Num (-5)))). reflexivity.
Defined.

(** C3: for a revenue that is neither zero nor NaN and a positive time
    whose quotient is below 10^21 in magnitude, [calculateROI] returns the
    quotient rounded to the nearest hundredth, written with exactly two
    decimals; [(100, 4)] gives 25.00 and [(7, 3)] gives 2.33. *)
Theorem calculateROI_value (r t : float) :
  ToBoolean (Num r) = true -> (0 <? t)%float = true ->
  (abs (r / t) <? 1e21)%float = true ->
  (exists n : N,
     calculateROI (Num r) (Num t) = two_decimals (r / t <? 0)%float n /\
     nearest_hundredth (fst (abs_frac (r / t))) (snd (abs_frac (r / t))) n) /\
  calculateROI (Num 100) (Num 4) = "25.00"%string /\
  calculateROI (Num 7) (Num 3) = "2.33"%string.
Proof.
  intros Hr Ht Hq. split; [| split; vm_compute; reflexivity].
  rewrite (calculateROI_defined r t Hr Ht).
  now apply toFixed_two_decimals.
Qed.

Lemma calculateROI_value_witness :
  exists n : N,
    calculateROI (Num 7) (Num 3) = two_decimals false n /\
    nearest_hundredth (fst (abs_frac (7 / 3)%float))
      (snd (abs_frac (7 / 3)%float)) n.
Proof.
  apply (calculateROI_value 7 3); reflexivity.
Defined.

(** At 10^21 the result is in exponent notation: no two-decimal string.
    A NaN revenue, which is not zero either, gives the dash. *)
Lemma calculateROI_value_counterexample :
  (ToBoolean (Num 1e21) = true /\ (0 <? 1)%float = true /\
   calculateROI (Num 1e21) (Num 1) = "1e+21"%string /\
   ~ exists neg n, calculateROI (Num 1e21) (Num 1) = two_decimals neg n) /\
  ((nan =? 0)%float = false /\ calculateROI (Num nan) (Num 1) = dash).
Proof.
  assert (E : calculateROI (Num 1e21) (Num 1) = "1e+21"%string)
    by (vm_compute; reflexivity).
  split; [| split; reflexivity].
  repeat split; try reflexivity; try exact E.
  intros [neg [n H]]. rewrite E in H. symmetry in H.
  apply (two_decimals_point neg n (list_ascii_of_string "1e+21")) in H.
  discriminate H.
Qed.

(** C10: for a negative revenue and a positive time the result is never
    the dash; it is the two-decimal quotient whenever the quotient is
    below 10^21 in magnitude, and [(-5, 2)] gives -2.50. *)
Theorem calculateROI_negative (r t : float) :
  (r <? 0)%float = true -> (0 <? t)%float = true ->
  calculateROI (Num r) (Num t) <> dash /\
  ((abs (r / t) <? 1e21)%float = true ->
   exists n : N,
     calculateROI (Num r) (Num t) = two_decimals (r / t <? 0)%float n /\
     nearest_hundredth (fst (abs_frac (r / t))) (snd (abs_frac (r / t))) n) /\
  calculateROI (Num (-5)) (Num 2) = "-2.50"%string.
Proof.
  intros Hr Ht. pose proof (negative_truthy r Hr) as Tr.
  rewrite (calculateROI_defined r t Tr Ht).
  split; [apply toFixed_not_dash|].
  split; [apply toFixed_two_decimals | vm_compute; reflexivity].
Qed.

Lemma calculateROI_negative_witness :
  calculateROI (Num (-5)) (Num 2) <> dash /\
  exists n : N,
    calculateROI (Num (-5)) (Num 2) = two_decimals true n /\
    nearest_hundredth (fst (abs_frac (-5 / 2)%float))
      (snd (abs_frac (-5 / 2)%float)) n.
Proof.
  destruct (calculateROI_negative (-5) 2 eq_refl eq_refl) as [H1 [H2 _]].
  split; [exact H1 | exact (H2 eq_refl)].
Defined.

Lemma calculateROI_negative_counterexample :
  (-1e21 <? 0)%float = true /\ (0 <? 1)%float = true /\
  calculateROI (Num (-1e21)) (Num 1) = "-1e+21"%string /\
  ~ exists neg n, calculateROI (Num (-1e21)) (Num 1) = two_decimals neg n.
Proof.
  assert (E : calculateROI (Num (-1e21)) (Num 1) = "-1e+21"%string)
    by (vm_compute; reflexivity).
  repeat split; try reflexivity; try exact E.
  intros [neg [n H]]. rewrite E in H. symmetry in H.
  apply (two_decimals_point neg n (list_ascii_of_string "-1e+21")) in H.
  discriminate H.
Qed.


(** * sortedTasks *)

Lemma NoNaN_In (tasks : list DerivedTask) (t : DerivedTask) :
  NoNaN tasks -> In t tasks -> is_nan (roi0 t) = false.
Proof.
  unfold NoNaN. rewrite Forall_forall. auto.
Qed.

Lemma priority_lt_rankZ (p q : Priority) :
  (priorityRank q <? priorityRank p)%float = true ->
  (rankZ q ?= rankZ p) = Lt.
Proof. destruct p, q; vm_compute; congruence. Qed.

Section RankClaims.
Context `{Collator}.

(** The comparator on two tasks with the same finite ROI key. *)
Lemma task_order_same_roi (a b : DerivedTask) :
  is_nan (roi0 a) = false -> is_nan (roi0 b) = false ->
  (roi0 a =? roi0 b)%float = true -> is_infinity (roi0 a) = false ->
  task_order a b
  = match rankZ (priority b) ?= rankZ (priority a) with
    | Lt => Lt
    | Gt => Gt
    | Eq => collate (title a) (title b)
    end.
Proof.
  intros Na Nb E I. rewrite eqb_ford in E by assumption.
  apply Z.eqb_eq in E. unfold task_order.
  now rewrite E, Z.compare_refl, I.
Qed.

Lemma task_order_roi_lt (a b : DerivedTask) :
  is_nan (roi0 a) = false -> is_nan (roi0 b) = false ->
  (roi0 b <? roi0 a)%float = true -> task_order a b = Lt.
Proof.
  intros Na Nb L. rewrite ltb_ford in L by assumption.
  apply Z.ltb_lt in L. unfold task_order.
  apply Z.compare_lt_iff in L. now rewrite L.
Qed.

(** In the result, a task that occurs before another one may precede
    it. *)
Lemma sortedTasks_before (tasks : list DerivedTask) (a b : DerivedTask) :
  NoNaN tasks -> OccursBefore (sortedTasks tasks) a b ->
  task_order a b <> Gt.
Proof.
  intros Hn [i [j [Hij [Hi Hj]]]].
  assert (Hn' : NoNaN (sortedTasks tasks))
    by (apply Array_sort_Forall; exact Hn).
  pose proof (StronglySorted_nth _ _
                (sortedTasks_StronglySorted tasks Hn) i j a b Hij Hi Hj) as Hp.
  unfold may_precede in Hp.
  rewrite sorts_after_order in Hp
    by (eapply NoNaN_In; [exact Hn' | eapply nth_error_In; eassumption]).
  destruct (task_order a b); congruence.
Qed.

Lemma Precedes_OccursBefore {A} (l : list A) (a b : A) :
  Precedes l a b -> OccursBefore l a b.
Proof.
  intros [[l1 [l2 [l3 E]]] _]. subst l.
  exists (List.length l1), (List.length l1 + S (List.length l2))%nat.
  split; [lia|]. split.
  - rewrite nth_error_app2 by lia. now rewrite Nat.sub_diag.
  - rewrite nth_error_app2 by lia.
    replace (List.length l1 + S (List.length l2) - List.length l1)%nat
      with (S (List.length l2)) by lia.
    cbn [nth_error]. rewrite nth_error_app2 by lia.
    now rewrite Nat.sub_diag.
Qed.

(** C1: in an input without NaN keys, a task whose ROI (an absent one
    read as 0) is greater than another task's precedes it in the result;
    an absent ROI and an explicit 0 are the same to the comparator. *)
Theorem roi_descending (tasks : list DerivedTask) (a b : DerivedTask) :
  NoNaN tasks -> In a tasks -> In b tasks ->
  (roi0 b <? roi0 a)%float = true ->
  Precedes (sortedTasks tasks) a b /\
  (forall (v : value) (t u : DerivedTask),
     absent v = true ->
     compareFn (with_roi v t) u = compareFn (with_roi (Num 0) t) u /\
     compareFn u (with_roi v t) = compareFn u (with_roi (Num 0) t)).
Proof.
  intros Hn Ia Ib L.
  split; [| intros [| | x] t u V; try discriminate; split; reflexivity].
  apply sortedTasks_Precedes; auto.
  apply task_order_roi_lt; auto; eapply NoNaN_In; eassumption.
Qed.

(** C4: in an input without NaN keys, of two tasks with the same finite
    ROI key the one of higher priority precedes the other; the input
    [B (10, Medium); A (10, High)] is ranked [A; B]. *)
Theorem priority_tie_break (tasks : list DerivedTask) (a b : DerivedTask) :
  NoNaN tasks -> In a tasks -> In b tasks ->
  (roi0 a =? roi0 b)%float = true -> is_infinity (roi0 a) = false ->
  (priorityRank (priority b) <? priorityRank (priority a))%float = true ->
  Precedes (sortedTasks tasks) a b /\
  (forall ta tb : DerivedTask,
     title ta = "A"%string -> roi ta = Num 10 -> priority ta = High ->
     title tb = "B"%string -> roi tb = Num 10 -> priority tb = Medium ->
     sortedTasks [tb; ta] = [ta; tb]).
Proof.
  intros Hn Ia Ib E I P.
  pose proof (NoNaN_In _ _ Hn Ia) as Na.
  pose proof (NoNaN_In _ _ Hn Ib) as Nb.
  split.
  - apply sortedTasks_Precedes; auto.
    rewrite task_order_same_roi by assumption.
    now rewrite (priority_lt_rankZ _ _ P).
  - intros ta tb Ta Ra Pa Tb Rb Pb.
    unfold sortedTasks. cbn [Array_sort insert].
    assert (S : sorts_after compareFn tb ta = true).
    { unfold sorts_after, SortCompare, compareFn, roi0.
      rewrite Ra, Rb, Pa, Pb. vm_compute. reflexivity. }
    now rewrite S.
Qed.

(** C5: in an input without NaN keys, for two tasks with the same finite
    ROI key and the same priority: the one whose title collates first
    precedes the other; a task that occurs before the other one does not
    collate after it; and when the titles do not tie, preceding is
    collating first. *)
Theorem title_tie_break (tasks : list DerivedTask) (a b : DerivedTask) :
  NoNaN tasks -> In a tasks -> In b tasks ->
  (roi0 a =? roi0 b)%float = true -> is_infinity (roi0 a) = false ->
  priority a = priority b ->
  (collate (title a) (title b) = Lt -> Precedes (sortedTasks tasks) a b) /\
  (OccursBefore (sortedTasks tasks) a b -> collate (title a) (title b) <> Gt) /\
  (collate (title a) (title b) <> Eq ->
   (Precedes (sortedTasks tasks) a b <-> collate (title a) (title b) = Lt)).
Proof.
  intros Hn Ia Ib E I P.
  pose proof (NoNaN_In _ _ Hn Ia) as Na.
  pose proof (NoNaN_In _ _ Hn Ib) as Nb.
  assert (O : task_order a b = collate (title a) (title b)).
  { rewrite task_order_same_roi by assumption.
    now rewrite P, Z.compare_refl. }
  assert (F : collate (title a) (title b) = Lt ->
              Precedes (sortedTasks tasks) a b).
  { intros L. apply sortedTasks_Precedes; auto. now rewrite O. }
  assert (B : OccursBefore (sortedTasks tasks) a b ->
              collate (title a) (title b) <> Gt).
  { intros Hb. rewrite <- O. now apply (sortedTasks_before tasks). }
  split; [exact F|]. split; [exact B|].
  intros NE. split; [| exact F].
  intros Hp. apply Precedes_OccursBefore, B in Hp.
  destruct (collate (title a) (title b)); congruence.
Qed.

(** C6: two arrangements of the same tasks, free of NaN keys and in which
    only identical tasks tie under the comparator, are ranked alike; the
    result is the only sorted arrangement, so every sort yields it. *)
Theorem rank_input_order (xs ys : list DerivedTask) :
  NoNaN xs ->
  (forall a b, In a xs -> In b xs -> ties compareFn a b = true -> a = b) ->
  Permutation xs ys ->
  sortedTasks ys = sortedTasks xs /\
  (forall out, Permutation xs out ->
     StronglySorted (may_precede compareFn) out -> out = sortedTasks xs).
Proof.
  intros Hn Hties Hperm.
  assert (U : forall out, Permutation xs out ->
            StronglySorted (may_precede compareFn) out ->
            out = sortedTasks xs).
  { intros out Hp Hs. symmetry.
    apply (sorted_perm_unique compareFn (fun t => is_nan (roi0 t) = false)).
    - apply Array_sort_Forall. exact Hn.
    - intros x y Ix Iy Pxy Pyx.
      assert (Ix' : In x xs)
        by (eapply Permutation_in;
            [apply Permutation_sym, Array_sort_perm | exact Ix]).
      assert (Iy' : In y xs)
        by (eapply Permutation_in;
            [apply Permutation_sym, Array_sort_perm | exact Iy]).
      apply Hties; auto.
      unfold may_precede in Pxy, Pyx. unfold ties.
      now rewrite Pxy, Pyx.
    - eapply perm_trans; [| exact Hp].
      apply Permutation_sym, Array_sort_perm.
    - now apply sortedTasks_StronglySorted.
    - exact Hs. }
  split; [| exact U].
  apply U.
  - eapply perm_trans; [exact Hperm | apply Array_sort_perm].
  - apply sortedTasks_StronglySorted.
    eapply Permutation_Forall; [exact Hperm | exact Hn].
Qed.

(** Without NaN keys the comparator is consistent, and every host
    algorithm returns the result of the reference one. *)
Lemma rank_by_sortedTasks (srt : HostSort) (xs : list DerivedTask) :
  conforming srt -> NoNaN xs -> rank_by srt xs = sortedTasks xs.
Proof.
  intros Hc Hn. unfold rank_by.
  assert (Hasym : forall x y : DerivedTask,
            is_nan (roi0 x) = false -> is_nan (roi0 y) = false ->
            sorts_after compareFn x y = true ->
            sorts_after compareFn y x = false)
    by (intros x y _ _; apply compareFn_asym).
  destruct (Hc DerivedTask compareFn _ Hasym compareFn_trans xs Hn)
    as (Hp & Hs & Hst).
  now apply sortedTasks_any_stable_sort.
Qed.

(** C7: ranking is idempotent on inputs without a NaN roi: on every host
    algorithm, ranking such an input gives the result of the reference
    algorithm, and ranking the result again returns the same sequence. *)
Theorem rank_idempotent (srt : HostSort) (xs : list DerivedTask) :
  conforming srt -> NoNaN xs ->
  rank_by srt (rank_by srt xs) = rank_by srt xs /\
  rank_by srt xs = sortedTasks xs /\
  sortedTasks (sortedTasks xs) = sortedTasks xs.
Proof.
  intros Hc Hn.
  assert (Hn' : NoNaN (sortedTasks xs))
    by (unfold sortedTasks; now apply Array_sort_Forall).
  assert (Hi : sortedTasks (sortedTasks xs) = sortedTasks xs).
  { unfold sortedTasks. apply Array_sort_fixpoint.
    apply StronglySorted_Sorted. now apply sortedTasks_StronglySorted. }
  rewrite (rank_by_sortedTasks srt xs Hc Hn).
  rewrite (rank_by_sortedTasks srt (sortedTasks xs) Hc Hn').
  repeat split; exact Hi.
Qed.

(** C9: the result is a permutation of the input, of the same length; the
    empty sequence and a sequence of one task are returned as they are. *)
Theorem rank_permutation (tasks : list DerivedTask) :
  Permutation tasks (sortedTasks tasks) /\
  List.length (sortedTasks tasks) = List.length tasks /\
  sortedTasks [] = [] /\
  (forall t, sortedTasks [t] = [t]).
Proof.
  split; [apply Array_sort_perm|].
  split; [symmetry; apply Permutation_length, Array_sort_perm|].
  split; [reflexivity | intros t; reflexivity].
Qed.
End RankClaims.

(** ** The copy isolates the input *)

Lemma update_app_last (h : heap) (l x : list DerivedTask) :
  update (List.length h) x (h ++ [l]) = h ++ [x].
Proof.
  induction h as [| l0 h IH]; cbn [List.length app update].
  - reflexivity.
  - now rewrite IH.
Qed.

(** C8: on a store where [tasks] is an array, the ranking succeeds and
    returns a new array holding the sorted elements; the array [tasks],
    like every other array of the store, still holds what it held. *)
Theorem sortedTasks_fresh_copy `{Collator} (h : heap) (tasks : ref)
    (l : list DerivedTask) :
  nth_error h tasks = Some l ->
  exists (copy : ref) (h' : heap),
    sortedTasks_st tasks h = Some (copy, h') /\
    copy <> tasks /\
    nth_error h' tasks = Some l /\
    nth_error h' copy = Some (sortedTasks l) /\
    (forall r, (r < List.length h)%nat -> nth_error h' r = nth_error h r).
Proof.
  intros Hl.
  assert (Hlt : (tasks < List.length h)%nat)
    by (apply nth_error_Some; congruence).
  exists (List.length h), (h ++ [sortedTasks l]).
  split.
  - unfold sortedTasks_st, spread, sort_in_place, bind, read, alloc, write,
      ret.
    rewrite Hl. rewrite nth_error_app2 by lia.
    rewrite Nat.sub_diag. cbn [nth_error].
    now rewrite update_app_last.
  - split; [lia|]. split; [| split].
    + rewrite nth_error_app1 by lia. exact Hl.
    + rewrite nth_error_app2 by lia. now rewrite Nat.sub_diag.
    + intros r Hr. now rewrite nth_error_app1 by lia.
Qed.

(** ** Concrete instances *)

Lemma roi_descending_witness :
  let undef := sample "1" "none" Undefined Low in
  let five := sample "2" "five" (Num 5) Low in
  NoNaN [undef; five] /\
  (roi0 undef <? roi0 five)%float = true /\
  Precedes (sortedTasks [undef; five]) five undef.
Proof.
  intros undef five.
  assert (Hn : NoNaN [undef; five]) by (repeat constructor).
  split; [exact Hn|]. split; [reflexivity|].
  apply (roi_descending [undef; five] five undef Hn).
  - right. left. reflexivity.
  - left. reflexivity.
  - reflexivity.
Defined.

(** A task with a NaN key between them leaves a task of ROI 1 before a
    task of ROI 2: the comparator answers NaN, read as a tie, on every
    pair it is asked about. *)
Lemma roi_descending_counterexample :
  let one := sample "1" "one" (Num 1) Low in
  let nn := sample "2" "nan" (Num nan) Low in
  let two := sample "3" "two" (Num 2) Low in
  (roi0 one <? roi0 two)%float = true /\
  sortedTasks [one; nn; two] = [one; nn; two] /\
  ~ Precedes (sortedTasks [one; nn; two]) two one.
Proof.
  intros one nn two.
  assert (E : sortedTasks [one; nn; two] = [one; nn; two])
    by (vm_compute; reflexivity).
  split; [reflexivity|]. split; [exact E|].
  rewrite E. intros [_ Hpos].
  specialize (Hpos 2%nat 0%nat eq_refl eq_refl). lia.
Qed.

Lemma priority_tie_break_witness :
  let b := sample "1" "B" (Num 10) Medium in
  let a := sample "2" "A" (Num 10) High in
  NoNaN [b; a] /\
  Precedes (sortedTasks [b; a]) a b /\
  sortedTasks [b; a] = [a; b].
Proof.
  intros b a.
  assert (Hn : NoNaN [b; a]) by (repeat constructor).
  split; [exact Hn|].
  destruct (priority_tie_break [b; a] a b Hn) as [P E];
    try reflexivity.
  - right. left. reflexivity.
  - left. reflexivity.
  - split; [exact P|]. apply E; reflexivity.
Defined.

(** Two infinite keys tie at once, so the priority is not looked at; and
    a NaN key in between keeps a Low task before a High one. *)
Lemma priority_tie_break_counterexample :
  let lo := sample "1" "A" (Num infinity) Low in
  let hi := sample "2" "A" (Num infinity) High in
  let l := sample "3" "A" (Num 10) Low in
  let n := sample "4" "A" (Num nan) Low in
  let h := sample "5" "A" (Num 10) High in
  ((roi0 hi =? roi0 lo)%float = true /\
   (priorityRank (priority lo) <? priorityRank (priority hi))%float = true /\
   sortedTasks [lo; hi] = [lo; hi] /\
   ~ Precedes (sortedTasks [lo; hi]) hi lo) /\
  ((roi0 h =? roi0 l)%float = true /\
   sortedTasks [l; n; h] = [l; n; h] /\
   ~ Precedes (sortedTasks [l; n; h]) h l).
Proof.
  intros lo hi l n h.
  assert (E1 : sortedTasks [lo; hi] = [lo; hi]) by (vm_compute; reflexivity).
  assert (E2 : sortedTasks [l; n; h] = [l; n; h]) by (vm_compute; reflexivity).
  split.
  - repeat split; try reflexivity; try exact E1.
    rewrite E1. intros [_ Hpos].
    specialize (Hpos 1%nat 0%nat eq_refl eq_refl). lia.
  - repeat split; try reflexivity; try exact E2.
    rewrite E2. intros [_ Hpos].
    specialize (Hpos 2%nat 0%nat eq_refl eq_refl). lia.
Qed.

Lemma title_tie_break_witness :
  let z := sample "1" "Zeta" (Num 5) High in
  let a := sample "2" "Alpha" (Num 5) High in
  NoNaN [z; a] /\
  collate (title a) (title z) = Lt /\
  Precedes (sortedTasks [z; a]) a z.
Proof.
  intros z a.
  assert (Hn : NoNaN [z; a]) by (repeat constructor).
  split; [exact Hn|]. split; [reflexivity|].
  destruct (title_tie_break [z; a] a z Hn) as [F _]; try reflexivity.
  - right. left. reflexivity.
  - left. reflexivity.
  - apply F. reflexivity.
Defined.

(** Two tasks with the same title: the first stays first, though its
    title does not collate before the other's.  Two infinite keys tie
    before the titles are looked at, and a NaN key in between keeps "B"
    before "A". *)
Lemma title_tie_break_counterexample :
  let t1 := sample "1" "A" (Num 5) High in
  let t2 := sample "2" "A" (Num 5) High in
  let ib := sample "3" "B" (Num infinity) High in
  let ia := sample "4" "A" (Num infinity) High in
  let b := sample "5" "B" (Num 5) High in
  let n := sample "6" "N" (Num nan) High in
  let a := sample "7" "A" (Num 5) High in
  (sortedTasks [t1; t2] = [t1; t2] /\
   ~ (Precedes (sortedTasks [t1; t2]) t1 t2
      <-> collate (title t1) (title t2) = Lt)) /\
  (collate (title ia) (title ib) = Lt /\
   sortedTasks [ib; ia] = [ib; ia] /\
   ~ Precedes (sortedTasks [ib; ia]) ia ib) /\
  (collate (title a) (title b) = Lt /\
   sortedTasks [b; n; a] = [b; n; a] /\
   ~ Precedes (sortedTasks [b; n; a]) a b).
Proof.
  intros t1 t2 ib ia b n a.
  assert (E1 : sortedTasks [t1; t2] = [t1; t2]) by (vm_compute; reflexivity).
  assert (E2 : sortedTasks [ib; ia] = [ib; ia]) by (vm_compute; reflexivity).
  assert (E3 : sortedTasks [b; n; a] = [b; n; a]) by (vm_compute; reflexivity).
  split; [| split].
  - split; [exact E1|]. rewrite E1. intros [Hp _].
    assert (P : Precedes [t1; t2] t1 t2).
    { split.
      - exists [], [], []. reflexivity.
      - intros [| [| i]] [| [| j]] Hi Hj; cbn in Hi, Hj;
          try lia; try discriminate; destruct i; discriminate. }
    specialize (Hp P). discriminate Hp.
  - split; [reflexivity|]. split; [exact E2|].
    rewrite E2. intros [_ Hpos].
    specialize (Hpos 1%nat 0%nat eq_refl eq_refl). lia.
  - split; [reflexivity|]. split; [exact E3|].
    rewrite E3. intros [_ Hpos].
    specialize (Hpos 2%nat 0%nat eq_refl eq_refl). lia.
Qed.

Lemma rank_input_order_witness :
  let a := sample "1" "Zeta" (Num 5) High in
  let b := sample "2" "Alpha" (Num 5) High in
  let c := sample "3" "Mid" (Num 8) Low in
  NoNaN [a; b; c] /\
  Permutation [a; b; c] [c; a; b] /\
  sortedTasks [c; a; b] = sortedTasks [a; b; c].
Proof.
  intros a b c.
  assert (Hn : NoNaN [a; b; c]) by (repeat constructor).
  assert (Hp : Permutation [a; b; c] [c; a; b]).
  { apply Permutation_sym.
    apply (Permutation_cons_app [a; b] [] c). apply Permutation_refl. }
  split; [exact Hn|]. split; [exact Hp|].
  destruct (rank_input_order [a; b; c] [c; a; b] Hn) as [E _];
    [| exact Hp | exact E].
  intros x y [<- | [<- | [<- | []]]] [<- | [<- | [<- | []]]] E;
    try reflexivity; vm_compute in E; discriminate E.
Defined.

(** Two tasks with the same keys keep the order of the input; and with a
    NaN key the result depends on where it stands. *)
Lemma rank_input_order_counterexample :
  let t1 := sample "1" "A" (Num 5) High in
  let t2 := sample "2" "A" (Num 5) High in
  let one := sample "3" "one" (Num 1) Low in
  let nn := sample "4" "nan" (Num nan) Low in
  let two := sample "5" "two" (Num 2) Low in
  (Permutation [t1; t2] [t2; t1] /\
   sortedTasks [t1; t2] <> sortedTasks [t2; t1]) /\
  (Permutation [one; nn; two] [two; one; nn] /\
   sortedTasks [one; nn; two] <> sortedTasks [two; one; nn]).
Proof.
  intros t1 t2 one nn two. split; split.
  - apply perm_swap.
  - vm_compute. discriminate.
  - apply Permutation_sym.
    apply (Permutation_cons_app [one; nn] [] two). apply Permutation_refl.
  - vm_compute. discriminate.
Qed.

Lemma rank_idempotent_witness :
  let b := sample "1" "B" (Num 10) Medium in
  let a := sample "2" "A" (Num 10) High in
  let c := sample "3" "C" (Num 25) Low in
  conforming merge_host /\
  NoNaN [b; a; c] /\
  rank_by merge_host (rank_by merge_host [b; a; c])
  = rank_by merge_host [b; a; c] /\
  rank_by merge_host [b; a; c] = sortedTasks [b; a; c] /\
  sortedTasks (sortedTasks [b; a; c]) = sortedTasks [b; a; c].
Proof.
  intros b a c.
  assert (Hn : NoNaN [b; a; c]) by (repeat constructor).
  split; [exact merge_host_conforming|]. split; [exact Hn|].
  exact (rank_idempotent merge_host [b; a; c] merge_host_conforming Hn).
Defined.

(** With NaN keys the order is the host's choice, and ranking need not be
    idempotent: the bottom-up merge sort moves the task with id 4 when it
    ranks its own result again. *)
Lemma rank_idempotent_counterexample :
  let n1 := sample "1" "T" (Num nan) Low in
  let t2 := sample "2" "T" (Num 1) Low in
  let n3 := sample "3" "T" (Num nan) Low in
  let t4 := sample "4" "T" (Num 2) Low in
  let t5 := sample "5" "T" (Num 2) Low in
  let xs := [n1; t2; n3; t4; t5] in
  conforming merge_host /\
  rank_by merge_host xs = [n1; t5; t2; n3; t4] /\
  rank_by merge_host (rank_by merge_host xs) = [n1; t5; t4; t2; n3] /\
  rank_by merge_host (rank_by merge_host xs) <> rank_by merge_host xs.
Proof.
  intros n1 t2 n3 t4 t5 xs.
  split; [exact merge_host_conforming|].
  split; [vm_compute; reflexivity|].
  split; [vm_compute; reflexivity|].
  vm_compute. discriminate.
Qed.

Lemma sortedTasks_fresh_copy_witness :
  let b := sample "1" "B" (Num 10) Medium in
  let a := sample "2" "A" (Num 10) High in
  exists (copy : ref) (h' : heap),
    sortedTasks_st 0%nat [[b; a]] = Some (copy, h') /\
    copy <> 0%nat /\
    nth_error h' 0%nat = Some [b; a] /\
    nth_error h' copy = Some (sortedTasks [b; a]) /\
    (forall r, (r < 1)%nat -> nth_error h' r = nth_error [[b; a]] r).
Proof.
  intros b a. apply (sortedTasks_fresh_copy [[b; a]] 0%nat [b; a]).
  reflexivity.
Defined.


(** * Further properties of the component *)

(** ** The comparator *)

Lemma rankZ_inj (p q : Priority) : rankZ p = rankZ q -> p = q.
Proof. destruct p, q; cbn; congruence || lia. Qed.

Section ComparatorProperties.
Context `{Collator}.

Lemma sort_sign_order (a b : DerivedTask) :
  is_nan (roi0 a) = false -> is_nan (roi0 b) = false ->
  sort_sign compareFn a b = task_order a b.
Proof.
  intros Na Nb. destruct (compareFn_sign a b Na Nb) as [Nv Sv].
  unfold sort_sign. rewrite !ltb_ford by (assumption || reflexivity).
  rewrite ford_zero, <- Sv.
  destruct (Z.compare_spec (ford (SortCompare compareFn a b)) 0);
    destruct (Z.ltb_spec (ford (SortCompare compareFn a b)) 0);
    destruct (Z.ltb_spec 0 (ford (SortCompare compareFn a b)));
    try reflexivity; lia.
Qed.

Lemma task_order_Eq_trans (a b c : DerivedTask) :
  task_order a b = Eq -> task_order b c = Eq -> task_order a c = Eq.
Proof.
  intros E1 E2.
  pose proof (task_order_trans a b c) as T1.
  pose proof (task_order_trans c b a) as T2.
  rewrite (task_order_antisym b c), (task_order_antisym a b),
    (task_order_antisym a c) in T2.
  rewrite E1, E2 in T1, T2. cbn [CompOpp] in T2.
  destruct (task_order a c); cbn [CompOpp] in T2; try reflexivity; exfalso.
  - apply T2; solve [discriminate | reflexivity].
  - apply T1; solve [discriminate | reflexivity].
Qed.

Lemma task_order_Lt_trans (a b c : DerivedTask) :
  task_order a b = Lt -> task_order b c = Lt -> task_order a c = Lt.
Proof.
  intros L1 L2.
  pose proof (task_order_trans a b c) as T1.
  rewrite L1, L2 in T1.
  destruct (task_order a c) eqn:E; try reflexivity; exfalso.
  - (* a ~ c and a < b give c < b, against b < c *)
    pose proof (task_order_trans c a b) as T2.
    rewrite (task_order_antisym a c), E, L1 in T2. cbn [CompOpp] in T2.
    rewrite (task_order_antisym b c), L2 in T2. cbn [CompOpp] in T2.
    apply T2; solve [discriminate | reflexivity].
  - apply T1; solve [discriminate | reflexivity].
Qed.

(** X3: on tasks whose ROI keys are not NaN the comparator is a
    consistent comparator in the sense of ECMA-262: every task ties with
    itself, the two orders of a pair have opposite signs, and tying,
    coming before and coming after are transitive. *)
Theorem compareFn_consistent (a b c : DerivedTask) :
  is_nan (roi0 a) = false -> is_nan (roi0 b) = false ->
  is_nan (roi0 c) = false ->
  sort_sign compareFn a a = Eq /\
  sort_sign compareFn b a = CompOpp (sort_sign compareFn a b) /\
  (forall s, sort_sign compareFn a b = s -> sort_sign compareFn b c = s ->
     sort_sign compareFn a c = s).
Proof.
  intros Na Nb Nc. rewrite !sort_sign_order by assumption.
  split; [| split].
  - pose proof (task_order_antisym a a) as S.
    destruct (task_order a a); cbn [CompOpp] in S; congruence.
  - apply task_order_antisym.
  - intros [| |] E1 E2.
    + now apply (task_order_Eq_trans a b c).
    + now apply (task_order_Lt_trans a b c).
    + rewrite (task_order_antisym c a).
      rewrite (task_order_Lt_trans c b a); [reflexivity | |].
      * rewrite (task_order_antisym b c), E2. reflexivity.
      * rewrite (task_order_antisym a b), E1. reflexivity.
Qed.

(** X4: for two tasks with finite ROI keys the comparator ties exactly
    when the three keys tie: equal ROI, the same priority and titles that
    collate as equal. *)
Theorem compareFn_tie_iff (a b : DerivedTask) :
  is_finite (roi0 a) = true -> is_finite (roi0 b) = true ->
  (ties compareFn a b = true <->
   (roi0 a =? roi0 b)%float = true /\ priority a = priority b /\
   collate (title a) (title b) = Eq).
Proof.
  unfold is_finite. intros Fa Fb.
  apply negb_true_iff, orb_false_iff in Fa, Fb.
  destruct Fa as [Na Ia], Fb as [Nb Ib].
  unfold ties. rewrite !sorts_after_order by assumption.
  rewrite (task_order_antisym a b).
  rewrite eqb_ford by assumption. unfold task_order. rewrite Ia.
  rewrite (Z.compare_antisym (ford (roi0 a)) (ford (roi0 b))).
  destruct (Z.compare_spec (ford (roi0 a)) (ford (roi0 b))) as [E | L | G];
    cbn [CompOpp].
  - rewrite E, Z.eqb_refl.
    destruct (Z.compare_spec (rankZ (priority b)) (rankZ (priority a)))
      as [Ep | Lp | Gp]; cbn [CompOpp negb andb].
    + apply rankZ_inj in Ep. symmetry in Ep.
      destruct (collate (title a) (title b)); cbn [CompOpp negb andb].
      * split; [intros _; repeat split; assumption | reflexivity].
      * split; [discriminate | intros [_ [_ C]]; discriminate C].
      * split; [discriminate | intros [_ [_ C]]; discriminate C].
    + split; [discriminate|]. intros [_ [P _]]. rewrite P in Lp. lia.
    + split; [discriminate|]. intros [_ [P _]]. rewrite P in Gp. lia.
  - destruct (Z.eqb_spec (ford (roi0 a)) (ford (roi0 b))); [lia|].
    cbn [negb andb]. split; [discriminate | intros [C _]; discriminate C].
  - destruct (Z.eqb_spec (ford (roi0 a)) (ford (roi0 b))); [lia|].
    cbn [negb andb]. split; [discriminate | intros [C _]; discriminate C].
Qed.

(** X5: a task whose ROI key is NaN ties with every task, in both
    orders: the sort never moves a task across it. *)
Theorem nan_key_ties (a b : DerivedTask) :
  is_nan (roi0 a) = true ->
  ties compareFn a b = true /\ ties compareFn b a = true /\
  sort_sign compareFn a b = Eq /\ sort_sign compareFn b a = Eq.
Proof.
  intros Na.
  assert (S1 : SortCompare compareFn a b = 0%float)
    by (unfold SortCompare; now rewrite (compareFn_nan a b (or_introl Na))).
  assert (S2 : SortCompare compareFn b a = 0%float)
    by (unfold SortCompare; now rewrite (compareFn_nan b a (or_intror Na))).
  unfold ties, sorts_after, sort_sign. rewrite S1, S2.
  repeat split; reflexivity.
Qed.

(** X6: two tasks whose ROI keys are the same infinity tie, whatever
    their priorities and titles. *)
Theorem infinite_keys_tie (a b : DerivedTask) :
  is_infinity (roi0 a) = true -> (roi0 a =? roi0 b)%float = true ->
  ties compareFn a b = true /\ sort_sign compareFn a b = Eq.
Proof.
  intros Ia E.
  assert (Na : is_nan (roi0 a) = false).
  { destruct (is_nan (roi0 a)) eqn:N; [| reflexivity].
    destruct (nan_compare (roi0 a) (roi0 b) (or_introl N)) as [_ [C _]].
    congruence. }
  assert (Nb : is_nan (roi0 b) = false).
  { destruct (is_nan (roi0 b)) eqn:N; [| reflexivity].
    destruct (nan_compare (roi0 a) (roi0 b) (or_intror N)) as [_ [C _]].
    congruence. }
  rewrite eqb_ford in E by assumption. apply Z.eqb_eq in E.
  assert (O : task_order a b = Eq)
    by (unfold task_order; now rewrite E, Z.compare_refl, Ia).
  assert (O' : task_order b a = Eq)
    by (now rewrite (task_order_antisym a b), O).
  unfold ties. rewrite sort_sign_order, !sorts_after_order by assumption.
  now rewrite O, O'.
Qed.

(** ** The ranked sequence *)

(** X1: without NaN keys the result is sorted throughout: a task never
    has to come after one that stands below it, and the ROI (an absent
    one read as 0) never increases down the sequence. *)
Theorem rank_sorted (tasks : list DerivedTask) (i j : nat)
    (x y : DerivedTask) :
  NoNaN tasks -> (i < j)%nat ->
  nth_error (sortedTasks tasks) i = Some x ->
  nth_error (sortedTasks tasks) j = Some y ->
  sorts_after compareFn x y = false /\ (roi0 x <? roi0 y)%float = false.
Proof.
  intros Hn Hij Hi Hj.
  assert (Hn' : NoNaN (sortedTasks tasks))
    by (apply Array_sort_Forall; exact Hn).
  assert (Nx : is_nan (roi0 x) = false)
    by (eapply NoNaN_In; [exact Hn' | eapply nth_error_In; eassumption]).
  assert (Ny : is_nan (roi0 y) = false)
    by (eapply NoNaN_In; [exact Hn' | eapply nth_error_In; eassumption]).
  pose proof (StronglySorted_nth _ _
                (sortedTasks_StronglySorted tasks Hn) i j x y Hij Hi Hj) as Hp.
  unfold may_precede in Hp. split; [exact Hp|].
  rewrite sorts_after_order in Hp by assumption.
  rewrite ltb_ford by assumption.
  destruct (Z.ltb_spec (ford (roi0 x)) (ford (roi0 y))) as [L | G];
    [| reflexivity].
  assert (C : (ford (roi0 y) ?= ford (roi0 x)) = Gt)
    by (apply Z.compare_gt_iff; exact L).
  unfold task_order in Hp. rewrite C in Hp. discriminate.
Qed.

(** X2: the ranking is stable: without NaN keys, the tasks that tie with
    a given task of the input come out in the order they came in. *)
Theorem rank_stable (tasks : list DerivedTask) (t : DerivedTask) :
  NoNaN tasks -> In t tasks ->
  filter (ties compareFn t) (sortedTasks tasks)
  = filter (ties compareFn t) tasks.
Proof.
  intros Hn It. unfold sortedTasks.
  apply (Array_sort_stable compareFn (fun u => is_nan (roi0 u) = false)).
  - apply compareFn_trans.
  - eapply NoNaN_In; eassumption.
  - exact Hn.
Qed.
End ComparatorProperties.

(** ** The table body *)

Section RenderingProperties.
Variable toLocaleString : float -> string.
Context `{Collator}.

Lemma sortedTasks_nil_iff (tasks : list DerivedTask) :
  sortedTasks tasks = [] <-> tasks = [].
Proof.
  split; [| now intros ->].
  intros E. pose proof (Array_sort_perm compareFn tasks) as P.
  unfold sortedTasks in E. rewrite E in P.
  now apply Permutation_sym, Permutation_nil in P.
Qed.

Lemma somes_task_rows (g : BodyRow -> option string)
    (k : DerivedTask -> string) (l : list DerivedTask) (tl : list BodyRow) :
  (forall t, g (taskRow toLocaleString t) = Some (k t)) ->
  somes (map g (map (taskRow toLocaleString) l ++ tl))
  = map k l ++ somes (map g tl).
Proof.
  intros Hg. induction l as [| t l IH]; [reflexivity|].
  cbn [map app somes]. rewrite Hg. cbn [somes]. now rewrite IH.
Qed.

Lemma task_rows_keys (g : BodyRow -> option string)
    (k : DerivedTask -> string) (tasks : list DerivedTask) :
  (forall t, g (taskRow toLocaleString t) = Some (k t)) ->
  g EmptyRow = None ->
  somes (map g (tableBody toLocaleString tasks))
  = map k (sortedTasks tasks).
Proof.
  intros Hg He. unfold tableBody. rewrite (somes_task_rows g k) by exact Hg.
  destruct (List.length tasks =? 0)%nat; cbn [map somes];
    rewrite ?He; cbn [somes]; apply app_nil_r.
Qed.

(** X7: the body has the placeholder exactly when there is no task, one
    row more than nothing in every case, and a row for a task exactly when
    the task is in the input. *)
Theorem table_body_rows (tasks : list DerivedTask) :
  (In EmptyRow (tableBody toLocaleString tasks) <-> tasks = []) /\
  List.length (tableBody toLocaleString tasks)
  = Nat.max 1 (List.length tasks) /\
  (forall t, In (taskRow toLocaleString t) (tableBody toLocaleString tasks)
             <-> In t tasks).
Proof.
  assert (Hmap : forall t l, In (taskRow toLocaleString t)
                               (map (taskRow toLocaleString) l) <-> In t l).
  { intros t l. rewrite in_map_iff. split.
    - intros [u [E Iu]]. now inversion E; subst.
    - intros It. now exists t. }
  assert (Hemp : forall l, ~ In EmptyRow (map (taskRow toLocaleString) l)).
  { intros l I. apply in_map_iff in I. destruct I as [u [E _]].
    discriminate E. }
  assert (Hperm : forall t, In t (sortedTasks tasks) <-> In t tasks).
  { intros t. split; apply Permutation_in;
      [apply Permutation_sym|]; apply Array_sort_perm. }
  unfold tableBody. destruct tasks as [| t0 tasks].
  - cbn. repeat split; auto; try tauto. intros [E | []]. discriminate E.
  - cbn [List.length Nat.eqb]. rewrite app_nil_r. split; [| split].
    + split; [| discriminate]. intros I. now apply Hemp in I.
    + rewrite length_map. unfold sortedTasks.
      rewrite <- (Permutation_length (Array_sort_perm compareFn (t0 :: tasks))).
      cbn [List.length]. lia.
    + intros t. rewrite Hmap. apply Hperm.
Qed.

(** X8: when the identifiers of the input are distinct, the React keys of
    the rows are the identifiers in ranked order, and they are distinct. *)
Theorem table_keys_distinct (tasks : list DerivedTask) :
  NoDup (map id tasks) ->
  somes (map row_key (tableBody toLocaleString tasks))
  = map id (sortedTasks tasks) /\
  NoDup (somes (map row_key (tableBody toLocaleString tasks))).
Proof.
  intros Hd.
  assert (E : somes (map row_key (tableBody toLocaleString tasks))
              = map id (sortedTasks tasks))
    by (apply task_rows_keys; reflexivity).
  split; [exact E|]. rewrite E.
  eapply Permutation_NoDup; [| exact Hd].
  apply Permutation_map, Array_sort_perm.
Qed.

(** X9: the titles given to the form for its duplicate check are the
    titles the rows show, up to the order. *)
Theorem existingTitles_shown (tasks : list DerivedTask) :
  Permutation (existingTitles tasks)
    (somes (map row_title (tableBody toLocaleString tasks))) /\
  List.length (existingTitles tasks) = List.length tasks.
Proof.
  split; [| apply length_map].
  rewrite (task_rows_keys row_title title) by reflexivity.
  apply Permutation_map, Array_sort_perm.
Qed.
End RenderingProperties.

(** ** The handlers *)

Lemma step_details (e : Event) (st : UIState) (t : DerivedTask) :
  details (fst (step e st)) = Some t ->
  e = Click (RowCell t) \/ details st = Some t.
Proof.
  destruct e as [[| u | u | u] | | v | | i p]; cbn; intros E;
    try (now right); try discriminate.
  left. now inversion E.
Qed.

Lemma step_editing (e : Event) (st : UIState) (t : DerivedTask) :
  editing (fst (step e st)) = Some t ->
  e = Click (EditButton t) \/ editing st = Some t.
Proof.
  destruct e as [[| u | u | u] | | v | | i p]; cbn; intros E;
    try (now right); try discriminate.
  left. now inversion E.
Qed.

Lemma run_cons (e : Event) (evs : list Event) (st : UIState) :
  run (e :: evs) st
  = (fst (run evs (fst (step e st))),
     snd (step e st) ++ snd (run evs (fst (step e st)))).
Proof.
  cbn [run]. destruct (step e st) as [st1 out1]. cbn [fst snd].
  now destruct (run evs st1).
Qed.

Lemma run_details (evs : list Event) : forall (st : UIState) (t : DerivedTask),
  details (fst (run evs st)) = Some t ->
  In (Click (RowCell t)) evs \/ details st = Some t.
Proof.
  induction evs as [| e evs IH]; intros st t E; [now right|].
  rewrite run_cons in E. cbn [fst] in E.
  destruct (IH _ _ E) as [I | D]; [left; now right|].
  destruct (step_details e st t D) as [-> | D']; [left; now left | now right].
Qed.

Lemma run_editing (evs : list Event) : forall (st : UIState) (t : DerivedTask),
  editing (fst (run evs st)) = Some t ->
  In (Click (EditButton t)) evs \/ editing st = Some t.
Proof.
  induction evs as [| e evs IH]; intros st t E; [now right|].
  rewrite run_cons in E. cbn [fst] in E.
  destruct (IH _ _ E) as [I | D]; [left; now right|].
  destruct (step_editing e st t D) as [-> | D']; [left; now left | now right].
Qed.

(** X10: from the initial state and whatever happens, the details dialog
    shows a task only if the row of that task was clicked outside its
    buttons, and the form edits a task only if the Edit button of that
    task was clicked: a click on Edit or Delete does not reach the row. *)
Theorem dialogs_show_clicked_tasks (evs : list Event) (t : DerivedTask) :
  (details (fst (run evs initialUI)) = Some t ->
   In (Click (RowCell t)) evs) /\
  (editing (fst (run evs initialUI)) = Some t ->
   In (Click (EditButton t)) evs).
Proof.
  split; intros E.
  - destruct (run_details evs initialUI t E) as [I | D];
      [exact I | discriminate D].
  - destruct (run_editing evs initialUI t E) as [I | D];
      [exact I | discriminate D].
Qed.

Lemma step_intents (e : Event) (st : UIState) :
  snd (step e st)
  = match e with
    | Click (DeleteButton t) => [OnDelete (id t)]
    | FormSubmit v => handleSubmit v
    | DetailsSave i p => [OnUpdate i p]
    | _ => []
    end.
Proof. destruct e as [[| u | u | u] | | v | | i p]; reflexivity. Qed.

Lemma handleSubmit_one (v : FormValue) : List.length (handleSubmit v) = 1%nat.
Proof.
  unfold handleSubmit. destruct (v_id v) as [i |]; [| reflexivity].
  now destruct (truthy_string i).
Qed.

Lemma step_OnDelete (e : Event) (st : UIState) (i : string) :
  In (OnDelete i) (snd (step e st))
  <-> exists t, e = Click (DeleteButton t) /\ id t = i.
Proof.
  rewrite step_intents. split.
  - destruct e as [[| u | u | u] | | v | | j p]; cbn; try tauto.
    + intros [E | []]. inversion E. now exists u.
    + unfold handleSubmit. destruct (v_id v) as [k |];
        [destruct (truthy_string k)|]; cbn; intros [E | []]; discriminate E.
    + intros [E | []]. discriminate E.
  - intros [t [-> <-]]. now left.
Qed.

Lemma step_OnAdd (e : Event) (st : UIState) (v : FormValue) :
  In (OnAdd v) (snd (step e st))
  <-> e = FormSubmit v /\ (v_id v = None \/ v_id v = Some EmptyString).
Proof.
  rewrite step_intents. split.
  - destruct e as [[| u | u | u] | | w | | j p]; cbn; try tauto.
    + intros [E | []]. discriminate E.
    + unfold handleSubmit. destruct (v_id w) as [k |] eqn:K.
      * destruct k as [| c k]; cbn; intros [E | []]; inversion E; subst.
        split; [reflexivity | now right].
      * cbn. intros [E | []]. inversion E; subst.
        split; [reflexivity | now left].
    + intros [E | []]. discriminate E.
  - intros [-> [N | N]]; unfold handleSubmit; rewrite N; now left.
Qed.

Lemma step_OnUpdate (e : Event) (st : UIState) (i : string)
    (p : TaskFields) :
  In (OnUpdate i p) (snd (step e st))
  <-> (e = FormSubmit (mkValue (Some i) p) /\ i <> EmptyString)
      \/ e = DetailsSave i p.
Proof.
  rewrite step_intents. split.
  - destruct e as [[| u | u | u] | | w | | j q]; cbn; try tauto.
    + intros [E | []]. discriminate E.
    + unfold handleSubmit. destruct w as [[k |] fs]; cbn.
      * destruct k as [| c k]; cbn; intros [E | []]; inversion E; subst.
        left. split; [reflexivity | discriminate].
      * intros [E | []]. discriminate E.
    + intros [E | []]. inversion E. now right.
  - intros [[-> N] | ->]; [| now left].
    unfold handleSubmit. cbn. destruct i; [contradiction | now left].
Qed.

(** X11: whatever happens, the component asks its owner exactly once for
    each delete click, form submission and details save, and every
    request has its cause among the events: a delete names the task of the
    clicked row; a submission with a non-empty identifier is an update of
    that identifier with all the other fields, one without is an addition
    of the submitted value; a details save is passed on as it is. *)
Theorem intents_accounted (evs : list Event) (st : UIState) :
  List.length (snd (run evs st)) = List.length (filter asks evs) /\
  (forall i, In (OnDelete i) (snd (run evs st))
     <-> exists t, In (Click (DeleteButton t)) evs /\ id t = i) /\
  (forall v, In (OnAdd v) (snd (run evs st))
     <-> In (FormSubmit v) evs /\
         (v_id v = None \/ v_id v = Some EmptyString)) /\
  (forall i p, In (OnUpdate i p) (snd (run evs st))
     <-> (In (FormSubmit (mkValue (Some i) p)) evs /\ i <> EmptyString)
         \/ In (DetailsSave i p) evs).
Proof.
  revert st. induction evs as [| e evs IH]; intros st.
  - cbn. repeat split; try tauto; try (intros [t [[] _]]);
      intros [[[] _] | []].
  - rewrite run_cons. cbn [snd].
    destruct (IH (fst (step e st))) as [L [D [A U]]].
    split; [| split; [| split]].
    + rewrite length_app, L, step_intents. cbn [filter].
      destruct e as [[| u | u | u] | | v | | i p]; cbn [asks List.length];
        try reflexivity.
      now rewrite handleSubmit_one.
    + intros i. rewrite in_app_iff, D, step_OnDelete. cbn [In]. split.
      * intros [[t [Ee E]] | [t [I E]]]; exists t; auto.
      * intros [t [[Ee | I] E]]; [left | right]; exists t; auto.
    + intros v. rewrite in_app_iff, A, step_OnAdd. cbn [In]. tauto.
    + intros i p. rewrite in_app_iff, U, step_OnUpdate. cbn [In]. tauto.
Qed.

(** ** calculateROI on every input *)

Lemma leb_zero_cases (t : float) :
  (t <=? 0)%float = (t <? 0)%float || (t =? 0)%float.
Proof.
  destruct (is_nan t) eqn:N.
  - destruct (nan_compare t 0 (or_introl N)) as [L [E Le]].
    now rewrite L, E, Le.
  - rewrite leb_ford, ltb_ford, eqb_ford by (assumption || reflexivity).
    destruct (Z.leb_spec (ford t) (ford 0));
      destruct (Z.ltb_spec (ford t) (ford 0));
      destruct (Z.eqb_spec (ford t) (ford 0)); try reflexivity; lia.
Qed.

(** X12: [calculateROI] returns the dash exactly when the revenue is
    absent, zero or NaN, or the time is absent, zero, NaN or negative; in
    every other case the result is another string. *)
Theorem calculateROI_dash_iff (v w : value) :
  calculateROI v w = dash
  <-> absent v || is_zero_value v || is_nan_value v
      || absent w || is_zero_value w || is_nan_value w || is_negative w
      = true.
Proof.
  assert (G : negb (ToBoolean v) || negb (ToBoolean w)
              || (ToNumber w <=? 0)%float
              = absent v || is_zero_value v || is_nan_value v
                || absent w || is_zero_value w || is_nan_value w
                || is_negative w).
  { destruct v as [| | r]; cbn [ToBoolean absent negb orb]; try reflexivity.
    cbn [is_zero_value is_nan_value]. rewrite negb_involutive.
    destruct ((r =? 0)%float || is_nan r); cbn [orb]; [reflexivity|].
    destruct w as [| | t]; cbn [ToBoolean absent negb orb]; try reflexivity.
    cbn [is_zero_value is_nan_value is_negative ToNumber].
    rewrite negb_involutive, leb_zero_cases.
    destruct (t =? 0)%float, (is_nan t), (t <? 0)%float; reflexivity. }
  unfold calculateROI. rewrite G.
  destruct (absent v || is_zero_value v || is_nan_value v
            || absent w || is_zero_value w || is_nan_value w
            || is_negative w).
  - tauto.
  - split; [| discriminate]. intros E. now apply toFixed_not_dash in E.
Qed.

(** *** Negating the revenue *)

Lemma binary_round_aux_opp (s : bool) (m e : Z) (l : location) :
  binary_round_aux prec emax (negb s) m e l
  = SFopp (binary_round_aux prec emax s m e l).
Proof.
  unfold binary_round_aux.
  destruct (shr_fexp prec emax m e l) as [mrs' e'].
  destruct (shr_fexp prec emax _ e' loc_Exact) as [mrs'' e''].
  destruct (shr_m mrs'') as [| p | p]; try reflexivity.
  now destruct (e'' <=? emax - prec).
Qed.

Lemma SFdiv_opp (x y : spec_float) :
  SF64div (SFopp x) y = SFopp (SF64div x y).
Proof.
  destruct x as [sx | sx | | sx mx ex], y as [sy | sy | | sy my ey];
    cbn [SFopp SF64div SFdiv]; try reflexivity;
    try (destruct sx, sy; reflexivity).
  destruct (SFdiv_core_binary prec emax (Zpos mx) ex (Zpos my) ey)
    as [[mz ez] lz].
  rewrite <- binary_round_aux_opp. now destruct sx, sy.
Qed.

Lemma div_opp (r t : float) : (- r / t)%float = (- (r / t))%float.
Proof.
  apply Prim2SF_inj. rewrite div_spec, !opp_spec, div_spec.
  apply SFdiv_opp.
Qed.

Lemma ford_opp (x : float) : ford (- x)%float = - ford x.
Proof.
  unfold ford. rewrite opp_spec.
  destruct (Prim2SF x) as [s | s | | s m e]; cbn [SFopp SFord];
    try reflexivity; destruct s; cbn [negb cond_Zopp]; lia.
Qed.

Lemma is_nan_opp (x : float) : is_nan (- x)%float = is_nan x.
Proof. rewrite !is_nan_spec, opp_spec. now destruct (Prim2SF x). Qed.

Lemma abs_frac_opp (x : float) : abs_frac (- x)%float = abs_frac x.
Proof.
  unfold abs_frac. rewrite opp_spec. now destruct (Prim2SF x).
Qed.

(** The printed form of a negated positive double is the printed form of
    the double after a minus sign. *)
Lemma toFixed_opp (q : float) (f : nat) :
  (0 <? q)%float = true ->
  toFixed (- q)%float f = String "-"%char (toFixed q f).
Proof.
  intros Hq.
  assert (Nq : is_nan q = false).
  { destruct (is_nan q) eqn:E; [| reflexivity].
    destruct (nan_compare 0 q (or_intror E)) as [L _]. congruence. }
  rewrite ltb_ford in Hq by (assumption || reflexivity).
  rewrite ford_zero in Hq. apply Z.ltb_lt in Hq.
  assert (L1 : (q <? 0)%float = false).
  { rewrite ltb_ford by (assumption || reflexivity). rewrite ford_zero.
    apply Z.ltb_ge. lia. }
  assert (L2 : (- q <? 0)%float = true).
  { rewrite ltb_ford by (rewrite ?is_nan_opp; assumption || reflexivity).
    rewrite ford_zero, ford_opp. apply Z.ltb_lt. lia. }
  unfold toFixed, is_finite, nonfinite_toString.
  rewrite is_nan_opp, !is_infinity_ford, ford_opp, Z.abs_opp, abs_frac_opp.
  rewrite Nq, L1, L2. cbn [orb negb].
  destruct (Z.abs (ford q) =? sf_big); cbn [negb]; [reflexivity|].
  destruct (abs_frac q) as [num den].
  now destruct (10 ^ 21 * den <=? num).
Qed.

(** X13: for a positive revenue and a positive time whose quotient is not
    rounded to zero, the negated revenue is displayed as the same
    characters after a minus sign. *)
Theorem calculateROI_negate (r t : float) :
  (0 <? r)%float = true -> (0 <? t)%float = true ->
  (0 <? r / t)%float = true ->
  calculateROI (Num (- r)) (Num t)
  = String "-"%char (calculateROI (Num r) (Num t)).
Proof.
  intros Hr Ht Hq.
  destruct (positive_time_truthy r Hr) as [Tr _].
  assert (Nr : is_nan r = false).
  { destruct (is_nan r) eqn:E; [| reflexivity].
    destruct (nan_compare 0 r (or_intror E)) as [L _]. congruence. }
  assert (Hn : (- r <? 0)%float = true).
  { rewrite ltb_ford in Hr |- * by
      (rewrite ?is_nan_opp; assumption || reflexivity).
    rewrite ford_zero in *. rewrite ford_opp.
    apply Z.ltb_lt in Hr. apply Z.ltb_lt. lia. }
  rewrite (calculateROI_defined (- r) t (negative_truthy _ Hn) Ht).
  rewrite (calculateROI_defined r t Tr Ht).
  rewrite div_opp. now apply toFixed_opp.
Qed.

(** *** Infinite revenue or time *)

Lemma Prim2SF_zero_cases (q : float) (s : bool) :
  Prim2SF q = S754_zero s -> q = 0%float \/ q = (-0)%float.
Proof.
  intros E. destruct s; [right | left]; apply Prim2SF_inj; now rewrite E.
Qed.

Lemma Prim2SF_inf_cases (q : float) (s : bool) :
  Prim2SF q = S754_infinity s ->
  q = (if s then neg_infinity else infinity).
Proof.
  intros E. apply Prim2SF_inj. rewrite E. now destruct s.
Qed.

Ltac roi_quotient D :=
  match type of D with
  | Prim2SF _ = S754_infinity _ =>
      apply Prim2SF_inf_cases in D; rewrite D
  | Prim2SF _ = S754_nan =>
      change S754_nan with (Prim2SF nan) in D;
      apply Prim2SF_inj in D; rewrite D
  | Prim2SF _ = S754_zero _ =>
      let E := fresh "E" in
      destruct (Prim2SF_zero_cases _ _ D) as [E | E]; rewrite E
  end.

(** X14: the guard lets infinite operands through.  For a revenue that is
    neither zero nor NaN and a positive time: an infinite time with a
    finite revenue displays 0.00; an infinite revenue with a finite time
    displays Infinity with the sign of the revenue; both infinite display
    NaN. *)
Theorem calculateROI_infinite (r t : float) :
  ToBoolean (Num r) = true -> (0 <? t)%float = true ->
  (is_infinity t = true -> is_infinity r = false ->
   calculateROI (Num r) (Num t) = "0.00"%string) /\
  (is_infinity r = true -> is_infinity t = false ->
   calculateROI (Num r) (Num t)
   = if (r <? 0)%float then "-Infinity"%string else "Infinity"%string) /\
  (is_infinity r = true -> is_infinity t = true ->
   calculateROI (Num r) (Num t) = "NaN"%string).
Proof.
  intros Hr Ht. rewrite (calculateROI_defined r t Hr Ht).
  cbn [ToBoolean] in Hr. apply negb_true_iff, orb_false_iff in Hr.
  destruct Hr as [Zr Nr].
  pose proof (div_spec r t) as D.
  rewrite ltb_spec in Ht. rewrite FloatAxioms.eqb_spec in Zr.
  rewrite is_nan_spec in Nr. rewrite !is_infinity_spec.
  rewrite (ltb_spec r 0).
  change (Prim2SF 0) with (S754_zero false) in *.
  destruct (Prim2SF r) as [sr | sr | | sr mr er],
           (Prim2SF t) as [st | st | | st mt et];
    try discriminate; try (destruct st; discriminate);
    cbn [SFis_inf]; (split; [| split]); intros I1 I2; try discriminate;
    destruct sr, st; try discriminate;
    cbn [SF64div SFdiv xorb] in D; roi_quotient D; vm_compute; reflexivity.
Qed.

(** ** Rendering twice *)

(** X15: every evaluation allocates: on a store where [tasks] is an
    array, two evaluations in a row succeed and return two different new
    arrays, both holding the ranked sequence, while [tasks] holds what it
    held and the store has grown by two arrays. *)
Theorem sortedTasks_twice `{Collator} (h : heap) (tasks : ref)
    (l : list DerivedTask) :
  nth_error h tasks = Some l ->
  exists (c1 c2 : ref) (h' : heap),
    (a <- sortedTasks_st tasks ;; b <- sortedTasks_st tasks ;; ret (a, b)) h
    = Some ((c1, c2), h') /\
    c1 <> c2 /\ c1 <> tasks /\ c2 <> tasks /\
    nth_error h' c1 = Some (sortedTasks l) /\
    nth_error h' c2 = Some (sortedTasks l) /\
    nth_error h' tasks = Some l /\
    List.length h' = S (S (List.length h)).
Proof.
  intros Hl.
  assert (Hlt : (tasks < List.length h)%nat)
    by (apply nth_error_Some; congruence).
  assert (R : forall h0, nth_error h0 tasks = Some l ->
            sortedTasks_st tasks h0
            = Some (List.length h0, h0 ++ [sortedTasks l])).
  { intros h0 H0.
    unfold sortedTasks_st, spread, sort_in_place, bind, read, alloc, write,
      ret.
    rewrite H0. rewrite nth_error_app2 by lia.
    rewrite Nat.sub_diag. cbn [nth_error].
    now rewrite update_app_last. }
  assert (H1 : nth_error (h ++ [sortedTasks l]) tasks = Some l)
    by (rewrite nth_error_app1 by lia; exact Hl).
  exists (List.length h), (S (List.length h)),
    ((h ++ [sortedTasks l]) ++ [sortedTasks l]).
  split.
  - unfold bind at 1. rewrite (R h Hl).
    unfold bind at 1. rewrite (R _ H1). unfold ret.
    rewrite length_app. cbn [List.length].
    now rewrite Nat.add_1_r.
  - repeat split; try lia.
    + rewrite nth_error_app1 by (rewrite length_app; cbn; lia).
      rewrite nth_error_app2 by lia. now rewrite Nat.sub_diag.
    + rewrite nth_error_app2 by (rewrite length_app; cbn; lia).
      rewrite length_app. cbn [List.length].
      now replace (S (List.length h) - (List.length h + 1))%nat with 0%nat
        by lia.
    + rewrite nth_error_app1 by (rewrite length_app; cbn; lia). exact H1.
    + rewrite !length_app. cbn [List.length]. lia.
Qed.

(** ** Concrete instances of the further properties *)

Lemma rank_sorted_witness :
  let a := sample "1" "Zeta" (Num 5) High in
  let b := sample "2" "Alpha" (Num 5) High in
  let c := sample "3" "Mid" (Num 8) Low in
  NoNaN [a; b; c] /\
  nth_error (sortedTasks [a; b; c]) 0 = Some c /\
  nth_error (sortedTasks [a; b; c]) 2 = Some a /\
  sorts_after compareFn c a = false /\ (roi0 c <? roi0 a)%float = false.
Proof.
  intros a b c.
  assert (Hn : NoNaN [a; b; c]) by (repeat constructor).
  split; [exact Hn|]. split; [reflexivity|]. split; [reflexivity|].
  apply (rank_sorted [a; b; c] 0 2 c a Hn); [lia | reflexivity | reflexivity].
Defined.

Lemma rank_stable_witness :
  let t1 := sample "1" "A" (Num 5) High in
  let c := sample "2" "Mid" (Num 8) Low in
  let t2 := sample "3" "A" (Num 5) High in
  NoNaN [t1; c; t2] /\
  filter (ties compareFn t1) (sortedTasks [t1; c; t2])
  = filter (ties compareFn t1) [t1; c; t2].
Proof.
  intros t1 c t2.
  assert (Hn : NoNaN [t1; c; t2]) by (repeat constructor).
  split; [exact Hn|].
  apply (rank_stable [t1; c; t2] t1 Hn). left. reflexivity.
Defined.

Lemma compareFn_consistent_witness :
  let a := sample "1" "Zeta" (Num 5) High in
  let b := sample "2" "Alpha" (Num 5) High in
  let c := sample "3" "Mid" (Num 8) Low in
  sort_sign compareFn c c = Eq /\
  sort_sign compareFn b c = CompOpp (sort_sign compareFn c b) /\
  (forall s, sort_sign compareFn c b = s -> sort_sign compareFn b a = s ->
     sort_sign compareFn c a = s).
Proof.
  intros a b c.
  apply (compareFn_consistent c b a); reflexivity.
Defined.

Lemma compareFn_tie_iff_witness :
  let t1 := sample "1" "A" (Num 5) High in
  let t2 := sample "2" "A" (Num 5) High in
  ties compareFn t1 t2 = true <->
  (roi0 t1 =? roi0 t2)%float = true /\ priority t1 = priority t2 /\
  collate (title t1) (title t2) = Eq.
Proof.
  intros t1 t2. apply (compareFn_tie_iff t1 t2); reflexivity.
Defined.

Lemma nan_key_ties_witness :
  let n := sample "1" "N" (Num nan) Low in
  let c := sample "2" "Mid" (Num 8) High in
  ties compareFn n c = true /\ ties compareFn c n = true /\
  sort_sign compareFn n c = Eq /\ sort_sign compareFn c n = Eq.
Proof.
  intros n c. apply (nan_key_ties n c). reflexivity.
Defined.

Lemma infinite_keys_tie_witness :
  let lo := sample "1" "B" (Num infinity) Low in
  let hi := sample "2" "A" (Num infinity) High in
  ties compareFn lo hi = true /\ sort_sign compareFn lo hi = Eq.
Proof.
  intros lo hi. apply (infinite_keys_tie lo hi); reflexivity.
Defined.

Lemma table_keys_distinct_witness :
  let b := sample "1" "B" (Num 10) Medium in
  let a := sample "2" "A" (Num 10) High in
  NoDup (map id [b; a]) /\
  somes (map row_key (tableBody (fun x => toFixed x 0) [b; a]))
  = map id (sortedTasks [b; a]) /\
  NoDup (somes (map row_key (tableBody (fun x => toFixed x 0) [b; a]))).
Proof.
  intros b a.
  assert (Hd : NoDup (map id [b; a])).
  { repeat constructor; cbn; intuition discriminate. }
  split; [exact Hd|].
  apply (table_keys_distinct (fun x => toFixed x 0) [b; a] Hd).
Defined.

Lemma dialogs_show_clicked_tasks_witness :
  let b := sample "1" "B" (Num 10) Medium in
  let a := sample "2" "A" (Num 10) High in
  let evs := [Click (EditButton a); Click (RowCell b); FormClose;
              Click (DeleteButton a)] in
  details (fst (run evs initialUI)) = Some b /\
  editing (fst (run evs initialUI)) = Some a /\
  In (Click (RowCell b)) evs /\ In (Click (EditButton a)) evs.
Proof.
  intros b a evs.
  split; [reflexivity|]. split; [reflexivity|]. split.
  - apply (proj1 (dialogs_show_clicked_tasks evs b)). reflexivity.
  - apply (proj2 (dialogs_show_clicked_tasks evs a)). reflexivity.
Defined.

Lemma calculateROI_negate_witness :
  calculateROI (Num (-5)) (Num 2)
  = String "-"%char (calculateROI (Num 5) (Num 2)).
Proof.
  apply (calculateROI_negate 5 2); reflexivity.
Defined.

Lemma calculateROI_infinite_witness :
  calculateROI (Num 5) (Num infinity) = "0.00"%string /\
  calculateROI (Num neg_infinity) (Num 2) = "-Infinity"%string /\
  calculateROI (Num infinity) (Num infinity) = "NaN"%string.
Proof.
  split; [| split].
  - apply (proj1 (calculateROI_infinite 5 infinity eq_refl eq_refl));
      reflexivity.
  - apply (proj1 (proj2 (calculateROI_infinite neg_infinity 2
                           eq_refl eq_refl))); reflexivity.
  - apply (proj2 (proj2 (calculateROI_infinite infinity infinity
                           eq_refl eq_refl))); reflexivity.
Defined.

Lemma sortedTasks_twice_witness :
  let b := sample "1" "B" (Num 10) Medium in
  let a := sample "2" "A" (Num 10) High in
  exists (c1 c2 : ref) (h' : heap),
    (x <- sortedTasks_st 0%nat ;; y <- sortedTasks_st 0%nat ;; ret (x, y))
      [[b; a]]
    = Some ((c1, c2), h') /\
    c1 <> c2 /\ c1 <> 0%nat /\ c2 <> 0%nat /\
    nth_error h' c1 = Some (sortedTasks [b; a]) /\
    nth_error h' c2 = Some (sortedTasks [b; a]) /\
    nth_error h' 0%nat = Some [b; a] /\
    List.length h' = 3%nat.
Proof.
  intros b a. apply (sortedTasks_twice [[b; a]] 0%nat [b; a]). reflexivity.
Defined.
